(** * ascii-earth: a rotating ASCII globe with day/night shading

    Shallow embedding of [src/ascii-earth.py] and the properties of its
    coordinate mapper, land rasterizer, shading pass and row refresh.

    Conventions of the embedding.
    - A Python [int] is a [Z]; a Python [float] is an exact rational [Q]:
      every finite double is a rational, and the arithmetic on them is
      carried out exactly (rounding of IEEE doubles is not modelled).
    - A Python exception is the [Raise] case of [result]; stateful code runs
      in the monad [M], which threads the interpreter state (the numpy
      arrays on the heap and the module global [LAND_CACHE]).
    - A numpy array of one-character strings with shape (rows, columns) is
      a [list (list ascii)]; arrays live on a heap and are passed around by
      reference, as in Python. *)

From Stdlib Require Import ZArith QArith Qround Qabs Lia Lqa Ascii String.
From stdpp Require Import base option list gmap strings.

Local Open Scope Z_scope.

(** ** Exceptions and results *)

Inductive exn : Set :=
  | ZeroDivisionError
  | IndexError
  | ValueError
  | DanglingReference.  (* not raised by Python: see [Np.deref] *)

Inductive result (A : Type) : Type :=
  | Ok (a : A)
  | Raise (e : exn).
Arguments Ok {A} a.
Arguments Raise {A} e.

#[global] Instance result_ret : MRet result := @Ok.
#[global] Instance result_bind : MBind result := fun A B f r =>
  match r with
  | Ok a => f a
  | Raise e => Raise e
  end.

(** ** Python arithmetic *)

Module Py.

(** [int(x)] for a float [x]: truncation towards zero. *)
Definition int (x : Q) : Z := Z.quot (Qnum x) (Zpos (Qden x)).

(** [a % b] on floats: the result has the sign of the divisor [b]. *)
Definition fmod (a b : Q) : Q := (a - b * inject_Z (Qfloor (a / b)))%Q.

(** [a % b] on ints; a zero divisor raises. *)
Definition mod_ (a b : Z) : result Z :=
  if Z.eqb b 0 then Raise ZeroDivisionError else Ok (a mod b).

(** [a > b] on floats. *)
Definition gt (a b : Q) : bool :=
  match (a ?= b)%Q with Gt => true | _ => false end.

(** [range(n)]. *)
Definition range (n : Z) : list Z := Z.of_nat <$> seq 0 (Z.to_nat n).

(** Index normalisation of sequences and numpy axes of length [n]:
    [-n <= i < 0] counts from the end, anything else outside [0, n)
    raises [IndexError]. *)
Definition index (n : nat) (i : Z) : result nat :=
  if (0 <=? i) && (i <? Z.of_nat n) then Ok (Z.to_nat i)
  else if (- Z.of_nat n <=? i) && (i <? 0) then Ok (Z.to_nat (i + Z.of_nat n))
  else Raise IndexError.

(** [s[:n]] *)
Definition slice_to {A : Type} (s : list A) (n : Z) : list A :=
  if 0 <=? n then take (Z.to_nat n) s
  else take (Z.to_nat (Z.of_nat (length s) + n)) s.

End Py.

(** ** Module constants *)

Definition ASCII_SHADES : list ascii :=
  list_ascii_of_string " .:-=+*#%@".

Definition ROTATION_SPEED : Z := 3.

(** ** Coordinate mapper *)

(** Lines 21-23 of [lat_lon_to_screen]: the shifted longitude after the
    modulo and the sign correction. *)
Definition lon_shifted (lon longitude_shift : Q) : Q :=
  let lon_shifted := Py.fmod (lon + longitude_shift) 360 in
  if Py.gt lon_shifted 180 then (lon_shifted - 360)%Q else lon_shifted.

Definition lat_lon_to_screen (lat lon : Q) (width height : Z)
    (longitude_shift : Q) : result (Z * Z) :=
  let lon_shifted := lon_shifted lon longitude_shift in
  x ← Py.mod_ (Py.int (((lon_shifted + 180) / 360) * inject_Z width)) width;
  let y := Py.int (((90 - lat) / 180) * inject_Z height) in
  mret (x, Z.max 0 (Z.min y (height - 1))).

(** ** Interpreter state: numpy arrays on a heap, and the global cache *)

(** A numpy array of dtype [str] and shape (rows, columns). *)
Abbreviation ndarray := (list (list ascii)).

(** References to arrays. *)
Abbreviation loc := nat.

Record state : Type := State {
  heap : gmap loc ndarray;
  LAND_CACHE : gmap (Z * Z) loc
}.

(** The state at program start: [LAND_CACHE = {}] and no array allocated. *)
Definition initial_state : state := State ∅ ∅.

Definition M (A : Type) : Type := state → result A * state.

#[global] Instance M_ret : MRet M := fun A a st => (Ok a, st).
#[global] Instance M_bind : MBind M := fun A B f m st =>
  match m st with
  | (Ok a, st') => f a st'
  | (Raise e, st') => (Raise e, st')
  end.

Definition lift {A : Type} (r : result A) : M A := fun st => (r, st).

(** [for x in xs: body(x)] *)
Fixpoint for_ {A : Type} (xs : list A) (body : A → M unit) : M unit :=
  match xs with
  | [] => mret tt
  | x :: xs' => body x;; for_ xs' body
  end.

Module Np.

(** Allocation of a new array object. *)
Definition alloc (a : ndarray) : M loc := fun st =>
  let l := fresh (dom (heap st)) in
  (Ok l, State (<[l := a]> (heap st)) (LAND_CACHE st)).

(** Dereference.  Python references never dangle; in the model a
    reference that the heap does not hold stops the computation with
    [DanglingReference], which no well-formed state can reach. *)
Definition deref (l : loc) : M ndarray := fun st =>
  match heap st !! l with
  | Some a => (Ok a, st)
  | None => (Raise DanglingReference, st)
  end.

Definition store (l : loc) (a : ndarray) : M unit := fun st =>
  (Ok tt, State (<[l := a]> (heap st)) (LAND_CACHE st)).

(** [np.full((rows, cols), fill, dtype=str)] *)
Definition full (rows cols : Z) (fill : ascii) : M loc :=
  if (rows <? 0) || (cols <? 0) then lift (Raise ValueError)
  else alloc (replicate (Z.to_nat rows) (replicate (Z.to_nat cols) fill)).

(** [np.copy(a)] *)
Definition copy (l : loc) : M loc :=
  a ← deref l; alloc a.

(** [len(a)]: the length of the first axis. *)
Definition len (l : loc) : M Z :=
  a ← deref l; mret (Z.of_nat (length a)).

(** [a[y, x]] *)
Definition getitem (l : loc) (y x : Z) : M ascii :=
  a ← deref l;
  i ← lift (Py.index (length a) y);
  match a !! i with
  | Some r =>
      j ← lift (Py.index (length r) x);
      match r !! j with
      | Some c => mret c
      | None => lift (Raise IndexError)
      end
  | None => lift (Raise IndexError)
  end.

(** [a[y, x] = c] *)
Definition setitem (l : loc) (y x : Z) (c : ascii) : M unit :=
  a ← deref l;
  i ← lift (Py.index (length a) y);
  match a !! i with
  | Some r =>
      j ← lift (Py.index (length r) x);
      store l (<[i := <[j := c]> r]> a)
  | None => lift (Raise IndexError)
  end.

(** The samples of [np.linspace(start, stop, num)] for [num >= 0]:
    [num] evenly spaced points with both end points included; a single
    sample is [start]. *)
Definition linspace_samples (start stop : Q) (num : Z) : list Q :=
  let step := ((stop - start) / inject_Z (num - 1))%Q in
  (fun i => (start + inject_Z i * step)%Q) <$> Py.range num.

(** [np.linspace(start, stop, num)] *)
Definition linspace (start stop : Q) (num : Z) : result (list Q) :=
  if num <? 0 then Raise ValueError
  else Ok (linspace_samples start stop num).

End Np.

(** [s[i]] for the string [s]. *)
Definition str_getitem (s : list ascii) (i : Z) : result ascii :=
  k ← Py.index (length s) i;
  match s !! k with
  | Some c => mret c
  | None => Raise IndexError
  end.

(** ** Land rasterizer *)

Definition cache_lookup (key : Z * Z) : M (option loc) := fun st =>
  (Ok (LAND_CACHE st !! key), st).

Definition cache_store (key : Z * Z) (l : loc) : M unit := fun st =>
  (Ok tt, State (heap st) (<[key := l]> (LAND_CACHE st))).

Section Rasterizer.

(** The Natural Earth land geometries and shapely's point-in-polygon
    test [land.contains(Point(lon, lat))] are supplied from outside. *)
Context {Shape : Type}.
Variable contains : Shape → Q → Q → bool.
Variable land_shapes : list Shape.

(** [any(land.contains(point) for land in land_shapes)] *)
Definition is_land (lon lat : Q) : bool :=
  existsb (fun land => contains land lon lat) land_shapes.

(** Lines 36-55: the cache-miss branch. *)
Definition populate (longitude_shift : Q) (width height : Z) : M loc :=
  land_cache ← Np.full height width " "%char;
  lat_steps ← lift (Np.linspace (-90) 90 (height * 2));
  lon_steps ← lift (Np.linspace (-180) 180 (width * 2));
  for_ lat_steps (fun lat =>
    for_ lon_steps (fun lon =>
      if is_land lon lat then
        '(x, y) ← lift (lat_lon_to_screen lat lon width height longitude_shift);
        Np.setitem land_cache y x "#"%char
      else mret tt));;
  cache_store (width, height) land_cache;;
  mret land_cache.

Definition generate_globe (longitude_shift : Q) (width height : Z) : M loc :=
  cached ← cache_lookup (width, height);
  land_cache ← match cached with
               | Some land_cache => mret land_cache
               | None => populate longitude_shift width height
               end;
  Np.copy land_cache.

(** *** Functional description of the rasterizer *)

(** The sample points, in the order in which the loops of lines 46-47
    visit them. *)
Definition samples (width height : Z) : list (Q * Q) :=
  lat ← Np.linspace_samples (-90) 90 (height * 2);
  (fun lon => (lat, lon)) <$> Np.linspace_samples (-180) 180 (width * 2).

(** Does the sample [(lat, lon)] lie in land and map to the cell at
    ([row], [col]) under the rotation [longitude_shift]? *)
Definition paints (longitude_shift : Q) (width height : Z)
    (row col : nat) (s : Q * Q) : bool :=
  is_land s.2 s.1 &&
  match lat_lon_to_screen s.1 s.2 width height longitude_shift with
  | Ok (x, y) => (x =? Z.of_nat col) && (y =? Z.of_nat row)
  | Raise _ => false
  end.

(** The grid in which exactly the cells hit by a land sample of [ss]
    hold the land marker. *)
Definition land_cell (longitude_shift : Q) (width height : Z)
    (ss : list (Q * Q)) (row col : nat) : ascii :=
  if existsb (paints longitude_shift width height row col) ss
  then "#"%char else " "%char.

Definition land_row (longitude_shift : Q) (width height : Z)
    (ss : list (Q * Q)) (row : nat) : list ascii :=
  land_cell longitude_shift width height ss row <$> seq 0 (Z.to_nat width).

Definition land_grid (longitude_shift : Q) (width height : Z)
    (ss : list (Q * Q)) : ndarray :=
  land_row longitude_shift width height ss <$> seq 0 (Z.to_nat height).

Definition rasterize (longitude_shift : Q) (width height : Z) : ndarray :=
  land_grid longitude_shift width height (samples width height).

End Rasterizer.

(** ** Well-formed caches *)

(** [a] has the shape ([height], [width]) and holds only the blank glyph
    and the land marker. *)
Definition is_land_grid (key : Z * Z) (a : ndarray) : Prop :=
  length a = Z.to_nat key.2 ∧
  Forall (fun r => length r = Z.to_nat key.1
                   ∧ Forall (fun c => c = " "%char ∨ c = "#"%char) r) a.

(** Every cache entry refers to an allocated land grid of its key's shape. *)
Definition cache_ok (st : state) : Prop :=
  ∀ key l, LAND_CACHE st !! key = Some l →
    ∃ a, heap st !! l = Some a ∧ is_land_grid key a.

(** ** Shading *)

(** Line 62: the sub-solar longitude at the given UTC hour. *)
Definition sun_longitude (hour : Z) : Z := (hour * 15) mod 360.

(** Line 66: the longitude shown at column [x]. *)
Definition column_lon (x width : Z) (longitude_shift : Q) : Q :=
  Py.fmod ((inject_Z x / inject_Z width) * 360 - 180 + longitude_shift) 360.

(** Line 67. *)
Definition brightness (lon : Q) (sun_longitude : Z) : Q :=
  (Qabs (lon - inject_Z sun_longitude) / 180)%Q.

(** Line 68. *)
Definition shade_index (brightness : Q) : Z :=
  let n := Z.of_nat (length ASCII_SHADES) in
  Z.min (Py.int (brightness * inject_Z (n - 1))) (n - 1).

(** The function reads the clock once; [hour] is the [now_utc.hour] it
    obtains.  The array is shaded in place and its reference returned. *)
Definition apply_day_night_shading (hour : Z) (globe : loc)
    (longitude_shift : Q) (width : Z) : M loc :=
  let sun_longitude := sun_longitude hour in
  rows ← Np.len globe;
  for_ (Py.range rows) (fun y =>
    for_ (Py.range width) (fun x =>
      let lon := column_lon x width longitude_shift in
      let brightness := brightness lon sun_longitude in
      let shade_index := shade_index brightness in
      c ← Np.getitem globe y x;
      v ← (if negb (Ascii.eqb c " ") then lift (str_getitem ASCII_SHADES shade_index)
           else mret " "%char);
      Np.setitem globe y x v));;
  mret globe.

(** ** Functional description of the shading pass *)

(** [map_upto k f l] applies [f j] to the entries of [l] at the indices
    [j < k] and leaves the others as they are: the contents of an array
    that a loop has updated in place up to index [k]. *)
Definition map_upto {A : Type} (k : nat) (f : nat → A → A) (l : list A) : list A :=
  imap (fun j c => if decide (j < k)%nat then f j c else c) l.

(** The ramp index computed for column [x] (lines 66-68). *)
Definition column_shade (hour : Z) (longitude_shift : Q) (width x : Z) : Z :=
  shade_index (brightness (column_lon x width longitude_shift) (sun_longitude hour)).

(** The glyph of the ramp at index [i]. *)
Definition ramp_glyph (i : Z) : ascii :=
  default " "%char (ASCII_SHADES !! Z.to_nat i).

(** Line 69, for the cell at column [x] that holds [c]. *)
Definition shade_cell (hour : Z) (longitude_shift : Q) (width : Z)
    (x : nat) (c : ascii) : ascii :=
  if Ascii.eqb c " " then " "%char
  else ramp_glyph (column_shade hour longitude_shift width (Z.of_nat x)).

Definition shade_row (hour : Z) (longitude_shift : Q) (width : Z)
    (r : list ascii) : list ascii :=
  map_upto (Z.to_nat width) (shade_cell hour longitude_shift width) r.

Definition shade_grid (hour : Z) (longitude_shift : Q) (width : Z)
    (a : ndarray) : ndarray :=
  shade_row hour longitude_shift width <$> a.

(** ** Reading the state *)

(** The glyph of [a] at row [y] and column [x], if the cell exists. *)
Definition cell (a : ndarray) (y x : nat) : option ascii :=
  r ← a !! y; r !! x.

(** The array that the cache holds for [key]. *)
Definition cached_grid (st : state) (key : Z * Z) : option ndarray :=
  l ← LAND_CACHE st !! key; heap st !! l.

(** [st'] differs from [st] at most in the contents of the array [l]. *)
Definition mutates_only (l : loc) (st st' : state) : Prop :=
  LAND_CACHE st' = LAND_CACHE st ∧ ∀ l', l' ≠ l → heap st' !! l' = heap st !! l'.

(** Every run of [m], however it ends, relates the state before to the
    state after by [R]. *)
Definition respects {A : Type} (R : state → state → Prop) (m : M A) : Prop :=
  ∀ st r st', m st = (r, st') → R st st'.

(** The two ends of the ramp.  Line 68 indexes the ramp by brightness:
    brightness 0 selects the first glyph and brightness 1 the last. *)
Definition darkest_glyph : ascii := ramp_glyph 0.
Definition brightest_glyph : ascii :=
  ramp_glyph (Z.of_nat (length ASCII_SHADES) - 1).

(** ** Row refresh (lines 89-99) *)

(** A frame: the rows of the shaded array joined into strings. *)
Abbreviation frame := (list (list ascii)).

(** The calls made on the curses window. *)
Inductive curses_call : Type :=
  | move (y x : Z)
  | addstr (s : list ascii).

Definition newline : ascii := "010"%char.

(** Lines 93-96: the loop over [enumerate(globe_strings)], entered with the
    counter at [i].  The result is the calls made and how the loop ended. *)
Fixpoint redraw_changed (prev_globe_strings : frame) (i : Z)
    (globe_strings : frame) (width : Z) : list curses_call * result unit :=
  match globe_strings with
  | [] => ([], Ok tt)
  | row :: rest =>
      match Py.index (length prev_globe_strings) i with
      | Raise e => ([], Raise e)
      | Ok k =>
          let calls :=
            if bool_decide (prev_globe_strings !! k ≠ Some row)
            then [move i 0; addstr (Py.slice_to row width)] else [] in
          let '(calls', r) := redraw_changed prev_globe_strings (i + 1) rest width in
          (calls ++ calls', r)
      end
  end.

(** Lines 98-99. *)
Definition redraw_all (globe_strings : frame) (width : Z) : list curses_call :=
  (fun row => addstr (Py.slice_to row width ++ [newline])) <$> globe_strings.

(** Lines 92-99.  [None] and the empty list are the falsy values of
    [prev_globe_strings]. *)
Definition redraw (prev_globe_strings : option frame) (globe_strings : frame)
    (width : Z) : list curses_call * result unit :=
  match prev_globe_strings with
  | Some ((_ :: _) as prev) => redraw_changed prev 0 globe_strings width
  | Some [] | None => (redraw_all globe_strings width, Ok tt)
  end.

(** The screen rows on which a sequence of calls draws, for a cursor that
    stands in row [cy]: [addstr] draws in the row of the cursor, and every
    newline it writes takes the cursor one row down. *)
Fixpoint drawn_rows (cy : Z) (calls : list curses_call) : list Z :=
  match calls with
  | [] => []
  | move y _ :: calls' => drawn_rows y calls'
  | addstr s :: calls' =>
      cy :: drawn_rows (cy + Z.of_nat (length (filter (fun c => c = newline) s))) calls'
  end.

(** ** The frame of one iteration of the rendering loop (lines 82-89) *)

Section RenderLoop.
Context {Shape : Type}.
Variable contains : Shape → Q → Q → bool.
Variable land_shapes : list Shape.

(** [maxyx] is what [stdscr.getmaxyx()] reports and [hour] the hour of the
    clock.  The result is [globe_strings]; strings are values, so it is
    the contents of the shaded array at that moment. *)
Definition render_frame (maxyx : Z * Z) (hour : Z) (longitude_shift : Z) : M frame :=
  let '(height, width) := maxyx in
  let width := Z.max 20 (Z.min (width - 2) 80) in
  let height := Z.max 10 (Z.min (height - 2) 40) in
  globe ← generate_globe contains land_shapes (inject_Z longitude_shift) width height;
  globe ← apply_day_night_shading hour globe (inject_Z longitude_shift) width;
  Np.deref globe.

End RenderLoop.

(** Line 104. *)
Definition next_longitude_shift (longitude_shift : Z) : Z :=
  (longitude_shift + ROTATION_SPEED) mod 360.

(** ** A concrete land region for the examples *)

(** An axis-parallel rectangle; like shapely's [contains], the test
    excludes the boundary. *)
Record box : Type := Box { lon_min : Q; lon_max : Q; lat_min : Q; lat_max : Q }.

Definition box_contains (b : box) (lon lat : Q) : bool :=
  Py.gt lon (lon_min b) && Py.gt (lon_max b) lon
  && Py.gt lat (lat_min b) && Py.gt (lat_max b) lat.

Definition example_land : list box := [Box 0 100 (-50) 50].

(** A fully land-covered 20 x 10 array at reference 0, as the shading
    pass may receive it. *)
Definition example_globe : ndarray := replicate 10 (replicate 20 "#"%char).
Definition example_state : state := State {[ 0%nat := example_globe ]} ∅.

(** ** The rendering loop (lines 73-108) *)

(** What one pass through the loop reads from outside: the window size that
    [stdscr.getmaxyx()] reports at its start, the hour of the clock that
    the shading pass reads, and the key that [stdscr.getch()] delivers at
    its end (-1 when none was pressed). *)
Record tick : Type := Tick { tick_maxyx : Z * Z; tick_hour : Z; tick_key : Z }.

(** Lines 83 and 84. *)
Definition window_width (maxyx : Z * Z) : Z := Z.max 20 (Z.min (maxyx.2 - 2) 80).
Definition window_height (maxyx : Z * Z) : Z := Z.max 10 (Z.min (maxyx.1 - 2) 40).

(** The heights of the frames never grow from one pass to the next. *)
Definition heights_never_grow (ticks : list tick) : Prop :=
  ∀ i t1 t2, ticks !! i = Some t1 → ticks !! S i = Some t2 →
    window_height (tick_maxyx t2) <= window_height (tick_maxyx t1).

(** How a run over finitely many ticks stands at its end. *)
Inductive loop_end : Type :=
  | Quit
      (* [getch] delivered [ord('q')]: the loop was left by [break] *)
  | Waiting (longitude_shift : Z) (prev_globe_strings : option frame)
      (* the ticks are used up; the next pass starts with these variables *)
  | Raised (e : exn).
      (* a pass raised [e] *)

Section RenderGlobe.
Context {Shape : Type}.
Variable contains : Shape → Q → Q → bool.
Variable land_shapes : list Shape.

(** The [while True] loop, one pass per tick, with the loop variables
    [longitude_shift] and [prev_globe_strings], the calls made on the
    window so far and the interpreter state.  [curs_set], [nodelay],
    [timeout], [refresh] and [time.sleep] draw nothing and are left out of
    the record of calls. *)
Fixpoint render_loop (ticks : list tick) (longitude_shift : Z)
    (prev_globe_strings : option frame) (screen : list curses_call)
    (st : state) : loop_end * list curses_call * state :=
  match ticks with
  | [] => (Waiting longitude_shift prev_globe_strings, screen, st)
  | t :: ticks' =>
      let width := window_width (tick_maxyx t) in
      match render_frame contains land_shapes (tick_maxyx t) (tick_hour t)
              longitude_shift st with
      | (Raise e, st') => (Raised e, screen, st')
      | (Ok globe_strings, st') =>
          match redraw prev_globe_strings globe_strings width with
          | (calls, Raise e) => (Raised e, screen ++ calls, st')
          | (calls, Ok _) =>
              if tick_key t =? 113 then (Quit, screen ++ calls, st')
              else render_loop ticks' (next_longitude_shift longitude_shift)
                     (Some globe_strings) (screen ++ calls) st'
          end
      end
  end.

(** [render_globe(stdscr)]: the loop entered with [longitude_shift = 0]
    and [prev_globe_strings = None] on an untouched window. *)
Definition render_globe (ticks : list tick) (st : state)
  : loop_end * list curses_call * state :=
  render_loop ticks 0 None [] st.

End RenderGlobe.

(** Passes on a terminal of 24 lines and 80 columns, and one on a terminal
    of 30 lines, at some hour and without a key pressed. *)
Definition example_tick : tick := Tick (24, 80) 14 (-1).
Definition example_tick_higher : tick := Tick (30, 80) 14 (-1).

(** ** Properties of the Python arithmetic *)

Example linspace_four :
  Qred <$> Np.linspace_samples (-90) 90 4 = [(-90)%Q; (-30)%Q; 30%Q; 90%Q].
Proof. reflexivity. Qed.

Example lat_lon_to_screen_corners :
  lat_lon_to_screen 90 (-180) 20 10 0 = Ok (0, 0)
  ∧ lat_lon_to_screen (-90) 180 20 10 0 = Ok (0, 9)
  ∧ lat_lon_to_screen 0 0 20 10 (-3) = Ok (9, 5)
  ∧ lat_lon_to_screen 0 0 0 10 0 = Raise ZeroDivisionError.
Proof. repeat split; reflexivity. Qed.

(** A square of land over longitudes and latitudes 0 to 10, at 36 x 18 and
    rotation 0: one land cell, in row 8 and column 18. *)
Example rasterize_square :
  ∀ row col,
    cell (rasterize box_contains [Box 0 10 0 10] 0 36 18) row col = Some "#"%char
    ↔ row = 8%nat ∧ col = 18%nat.
Proof.
  assert (H : rasterize box_contains [Box 0 10 0 10] 0 36 18
              = <[8%nat := <[18%nat := "#"%char]> (replicate 36 " "%char)]>
                  (replicate 18 (replicate 36 " "%char))) by (by vm_compute).
  rewrite H. clear H. intros row col. unfold cell. split.
  - do 19 (destruct row as [|row]; [do 37 (destruct col as [|col]; [by intros [=]|]); done|]).
    done.
  - by intros [-> ->].
Qed.

Example shading_at_midnight_utc :
  column_shade 0 0 20 <$> Py.range 20
  = [9; 9; 9; 9; 9; 9; 9; 9; 9; 9; 0; 0; 1; 2; 3; 4; 5; 6; 7; 8].
Proof. by vm_compute. Qed.

Example redraw_second_row :
  redraw (Some [[" "; "@"]; [" "; " "]]%char) [[" "; "@"]; ["#"; " "]]%char 2
  = ([move 1 0; addstr ["#"; " "]%char], Ok tt).
Proof. reflexivity. Qed.

Lemma Py_gt_spec (a b : Q) : Py.gt a b = true <-> (b < a)%Q.
Proof.
  unfold Py.gt. rewrite (Qgt_alt a b).
  destruct (a ?= b)%Q; split; intros H; congruence.
Qed.

Lemma Py_gt_false (a b : Q) : Py.gt a b = false <-> (a <= b)%Q.
Proof.
  rewrite <- not_true_iff_false, Py_gt_spec. split.
  - apply Qnot_lt_le.
  - apply Qle_not_lt.
Qed.


(** ** Properties of the coordinate mapper *)


Lemma lat_lon_to_screen_bounds (lat lon : Q) (width height : Z) (shift : Q) :
  0 < width -> 0 < height ->
  exists col row, lat_lon_to_screen lat lon width height shift = Ok (col, row)
    /\ 0 <= col < width /\ 0 <= row < height.
Proof.
  intros Hw Hh. unfold lat_lon_to_screen, Py.mod_.
  destruct (Z.eqb_spec width 0) as [->|_]; [lia|].
  eexists _, _. split; [reflexivity|]. split.
  - apply Z.mod_pos_bound. lia.
  - lia.
Qed.



(** ** Reasoning about the state monad *)

Lemma M_bind_Ok {A B : Type} (m : M A) (f : A → M B) (st st' : state) (a : A) :
  m st = (Ok a, st') → (m ≫= f) st = f a st'.
Proof. intros H. unfold mbind, M_bind. by rewrite H. Qed.

(** Loop rule: an invariant indexed by the number of completed iterations. *)
Lemma for_inv {A : Type} (I : nat → state → Prop) (xs : list A)
    (body : A → M unit) (st : state) :
  I 0%nat st →
  (∀ k x s, xs !! k = Some x → I k s →
     ∃ s', body x s = (Ok tt, s') ∧ I (S k) s') →
  ∃ st', for_ xs body st = (Ok tt, st') ∧ I (length xs) st'.
Proof.
  revert I st. induction xs as [|x xs IH]; intros I st H0 Hstep.
  - by exists st.
  - destruct (Hstep 0%nat x st eq_refl H0) as (s1 & Hb & H1).
    destruct (IH (fun k => I (S k)) s1 H1) as (st' & Hf & HI).
    { intros k y s Hk. by apply (Hstep (S k)). }
    exists st'. split; [|done].
    simpl. by rewrite (M_bind_Ok _ _ _ _ _ Hb).
Qed.

Lemma Py_index_nat (n i : nat) : (i < n)%nat → Py.index n (Z.of_nat i) = Ok i.
Proof.
  intros Hi. unfold Py.index.
  destruct (Z.leb_spec 0 (Z.of_nat i)); [|lia].
  destruct (Z.ltb_spec (Z.of_nat i) (Z.of_nat n)); [|lia].
  simpl. by rewrite Nat2Z.id.
Qed.

Lemma Py_range_length (n : Z) : length (Py.range n) = Z.to_nat n.
Proof. unfold Py.range. by rewrite length_fmap, length_seq. Qed.

Lemma Py_range_lookup (n : Z) (k : nat) (x : Z) :
  Py.range n !! k = Some x ↔ x = Z.of_nat k ∧ (k < Z.to_nat n)%nat.
Proof.
  unfold Py.range. rewrite list_lookup_fmap, fmap_Some. split.
  - intros (j & Hj & ->). apply lookup_seq in Hj as [-> ?]. done.
  - intros [-> Hk]. exists k. split; [|done]. by apply lookup_seq.
Qed.

Lemma getitem_ok (l : loc) (a : ndarray) (i j : nat) (r : list ascii)
    (c : ascii) (st : state) :
  heap st !! l = Some a → a !! i = Some r → r !! j = Some c →
  Np.getitem l (Z.of_nat i) (Z.of_nat j) st = (Ok c, st).
Proof.
  intros Hl Hi Hj. unfold Np.getitem.
  rewrite (M_bind_Ok _ _ st st a); [|unfold Np.deref; by rewrite Hl].
  rewrite (M_bind_Ok _ _ st st i).
  2:{ unfold lift. by rewrite Py_index_nat by (by eapply lookup_lt_Some). }
  rewrite Hi. rewrite (M_bind_Ok _ _ st st j).
  2:{ unfold lift. by rewrite Py_index_nat by (by eapply lookup_lt_Some). }
  by rewrite Hj.
Qed.

Lemma setitem_ok (l : loc) (a : ndarray) (i j : nat) (r : list ascii)
    (c : ascii) (st : state) :
  heap st !! l = Some a → a !! i = Some r → (j < length r)%nat →
  Np.setitem l (Z.of_nat i) (Z.of_nat j) c st
  = (Ok tt, State (<[l := <[i := <[j := c]> r]> a]> (heap st)) (LAND_CACHE st)).
Proof.
  intros Hl Hi Hj. unfold Np.setitem.
  rewrite (M_bind_Ok _ _ st st a); [|unfold Np.deref; by rewrite Hl].
  rewrite (M_bind_Ok _ _ st st i).
  2:{ unfold lift. by rewrite Py_index_nat by (by eapply lookup_lt_Some). }
  rewrite Hi. rewrite (M_bind_Ok _ _ st st j).
  2:{ unfold lift. by rewrite Py_index_nat. }
  done.
Qed.

(** ** In-place updates of a prefix *)

(** Case analysis on the test inside a looked-up, conditionally updated
    entry. *)
Ltac case_updated :=
  unfold fmap, option_fmap, option_map; repeat case_decide; first [done|lia].

Section MapUpto.
Context {A : Type}.
Implicit Types (f : nat → A → A) (l : list A).

Lemma map_upto_lookup k f l j :
  map_upto k f l !! j
  = (fun c => if decide (j < k)%nat then f j c else c) <$> l !! j.
Proof. unfold map_upto. by rewrite list_lookup_imap. Qed.

Lemma map_upto_length k f l : length (map_upto k f l) = length l.
Proof. unfold map_upto. by rewrite length_imap. Qed.

Lemma map_upto_0 f l : map_upto 0 f l = l.
Proof.
  apply list_eq. intros j. rewrite map_upto_lookup.
  destruct (l !! j) as [c|]; [|done]. case_updated.
Qed.

Lemma map_upto_S k f l c :
  l !! k = Some c → <[k := f k c]> (map_upto k f l) = map_upto (S k) f l.
Proof.
  intros Hk. apply list_eq. intros j.
  destruct (decide (j = k)) as [->|Hne].
  - rewrite list_lookup_insert_eq.
    2:{ rewrite map_upto_length. by eapply lookup_lt_Some. }
    rewrite map_upto_lookup, Hk. case_updated.
  - rewrite list_lookup_insert_ne by done.
    rewrite !map_upto_lookup. destruct (l !! j) as [d|]; [|done]. case_updated.
Qed.

Lemma map_upto_all k f l : (length l ≤ k)%nat → map_upto k f l = imap f l.
Proof.
  intros Hk. apply list_eq. intros j.
  rewrite map_upto_lookup, list_lookup_imap.
  destruct (l !! j) as [d|] eqn:E; [|done].
  apply lookup_lt_Some in E. case_updated.
Qed.

End MapUpto.

(** ** The ramp index is always a valid index *)

Lemma Py_int_nonneg (q : Q) : (0 <= q)%Q → 0 <= Py.int q.
Proof.
  intros Hq. unfold Py.int. apply Z.quot_pos; [|lia].
  unfold Qle in Hq. simpl in Hq. lia.
Qed.

Lemma brightness_nonneg (lon : Q) (sun : Z) : (0 <= brightness lon sun)%Q.
Proof.
  unfold brightness. pose proof (Qabs_nonneg (lon - inject_Z sun)) as H.
  apply Qle_shift_div_l; lra.
Qed.

Lemma shade_index_range (b : Q) :
  (0 <= b)%Q → 0 <= shade_index b < Z.of_nat (length ASCII_SHADES).
Proof.
  intros Hb. unfold shade_index. simpl length.
  assert (0 <= Py.int (b * inject_Z (Z.of_nat 10 - 1))).
  { apply Py_int_nonneg. apply Qmult_le_0_compat; [done|]. by vm_compute. }
  lia.
Qed.

Lemma column_shade_range (hour : Z) (shift : Q) (width x : Z) :
  0 <= column_shade hour shift width x < Z.of_nat (length ASCII_SHADES).
Proof. apply shade_index_range, brightness_nonneg. Qed.

Lemma str_getitem_ramp (i : Z) :
  0 <= i < Z.of_nat (length ASCII_SHADES) →
  str_getitem ASCII_SHADES i = Ok (ramp_glyph i).
Proof.
  intros Hi. unfold str_getitem, ramp_glyph.
  replace i with (Z.of_nat (Z.to_nat i)) at 1 by lia.
  rewrite Py_index_nat by lia. simpl mbind. unfold mbind, result_bind.
  destruct (ASCII_SHADES !! Z.to_nat i) eqn:E; [done|].
  apply lookup_ge_None in E. lia.
Qed.

(** ** The shading loops compute [shade_grid] in place *)

Lemma state_eta (st : state) : st = State (heap st) (LAND_CACHE st).
Proof. by destruct st. Qed.

(** The inner loop (line 65) over the columns of row [i]. *)
Lemma shade_columns_spec (hour : Z) (globe : loc) (shift : Q) (width : Z)
    (i : nat) (a : ndarray) (r : list ascii) (st : state) :
  heap st !! globe = Some a → a !! i = Some r →
  (Z.to_nat width ≤ length r)%nat →
  for_ (Py.range width) (fun x =>
    c ← Np.getitem globe (Z.of_nat i) x;
    v ← (if negb (Ascii.eqb c " ")
         then lift (str_getitem ASCII_SHADES (column_shade hour shift width x))
         else mret " "%char);
    Np.setitem globe (Z.of_nat i) x v) st
  = (Ok tt, State (<[globe := <[i := shade_row hour shift width r]> a]> (heap st))
                  (LAND_CACHE st)).
Proof.
  intros Hl Hi Hw.
  set (f := shade_cell hour shift width).
  pose (I := fun (k : nat) (s : state) =>
    s = State (<[globe := <[i := map_upto k f r]> a]> (heap st)) (LAND_CACHE st)).
  edestruct (for_inv I (Py.range width)) as (st' & Hrun & Hend); last first.
  - rewrite Hrun. f_equal. rewrite Hend, Py_range_length. done.
  - intros k x s Hk ->. apply Py_range_lookup in Hk as [-> Hk].
    destruct (lookup_lt_is_Some_2 r k) as [c Hc]; [lia|].
    assert (Hi' : (i < length a)%nat) by (by eapply lookup_lt_Some).
    exists (State (<[globe := <[i := map_upto (S k) f r]> a]> (heap st)) (LAND_CACHE st)).
    split; [|done].
    set (rk := map_upto k f r). set (ak := <[i := rk]> a).
    set (s := State (<[globe := ak]> (heap st)) (LAND_CACHE st)).
    assert (Hs : heap s !! globe = Some ak) by apply lookup_insert_eq.
    assert (Hak : ak !! i = Some rk) by (by apply list_lookup_insert_eq).
    assert (Hrk : rk !! k = Some c).
    { unfold rk. rewrite map_upto_lookup, Hc. case_updated. }
    rewrite (M_bind_Ok _ _ s s c) by (by eapply getitem_ok).
    rewrite (M_bind_Ok _ _ s s (f k c)).
    2:{ unfold f, shade_cell. destruct (Ascii.eqb c " "); simpl; [done|].
        unfold lift. by rewrite str_getitem_ramp by apply column_shade_range. }
    rewrite (setitem_ok globe ak i k rk (f k c) s Hs Hak).
    2:{ unfold rk. rewrite map_upto_length. lia. }
    unfold s, ak, rk. simpl. f_equal.
    rewrite insert_insert_eq. f_equal.
    rewrite list_insert_insert_eq. by rewrite (map_upto_S k f r c Hc).
  - unfold I. rewrite map_upto_0, (list_insert_id a i r Hi).
    rewrite (insert_id (heap st) globe a Hl). apply state_eta.
Qed.

Lemma apply_day_night_shading_spec (hour : Z) (globe : loc) (shift : Q)
    (width : Z) (a : ndarray) (st : state) :
  heap st !! globe = Some a →
  Forall (fun r => (Z.to_nat width ≤ length r)%nat) a →
  apply_day_night_shading hour globe shift width st
  = (Ok globe, State (<[globe := shade_grid hour shift width a]> (heap st))
                     (LAND_CACHE st)).
Proof.
  intros Hl Hshape. unfold apply_day_night_shading.
  erewrite M_bind_Ok; [|unfold Np.len; erewrite M_bind_Ok;
                         [reflexivity|unfold Np.deref; by rewrite Hl]].
  set (F := fun (_ : nat) (r : list ascii) => shade_row hour shift width r).
  pose (I := fun (k : nat) (s : state) =>
    s = State (<[globe := map_upto k F a]> (heap st)) (LAND_CACHE st)).
  edestruct (for_inv I (Py.range (Z.of_nat (length a)))) as (st' & Hrun & Hend);
    last first.
  - erewrite M_bind_Ok by exact Hrun. unfold mret, M_ret. f_equal.
    rewrite Hend, Py_range_length, Nat2Z.id.
    rewrite map_upto_all by done. unfold F, shade_grid. do 2 f_equal.
    apply list_eq. intros j. by rewrite list_lookup_imap, list_lookup_fmap.
  - intros k y s Hk ->. apply Py_range_lookup in Hk as [-> Hk].
    rewrite Nat2Z.id in Hk.
    destruct (lookup_lt_is_Some_2 a k) as [r Hr]; [lia|].
    assert (Hrk : map_upto k F a !! k = Some r).
    { rewrite map_upto_lookup, Hr. case_updated. }
    eexists. split.
    + unfold column_shade. eapply shade_columns_spec; [apply lookup_insert_eq|exact Hrk|].
      eapply Forall_lookup_1 in Hshape; [exact Hshape|exact Hr].
    + unfold I. simpl. f_equal. rewrite insert_insert_eq. f_equal.
      change (shade_row hour shift width r) with (F k r). by apply map_upto_S.
  - unfold I. rewrite map_upto_0, (insert_id (heap st) globe a Hl). apply state_eta.
Qed.

(** ** Nested loops as one loop over the product *)

Lemma for_ext {A : Type} (xs : list A) (body body' : A → M unit) (st : state) :
  (∀ x s, body x s = body' x s) → for_ xs body st = for_ xs body' st.
Proof.
  intros Hb. revert st. induction xs as [|x xs IH]; intros st; [done|].
  simpl. unfold mbind, M_bind. rewrite Hb.
  destruct (body' x st) as [[[]|e] s]; [apply IH|done].
Qed.

Lemma for_app {A : Type} (xs ys : list A) (body : A → M unit) (st : state) :
  for_ (xs ++ ys) body st = (for_ xs body;; for_ ys body) st.
Proof.
  revert st. induction xs as [|x xs IH]; intros st; [done|].
  simpl. unfold mbind, M_bind.
  destruct (body x st) as [[[]|e] s]; [|done].
  rewrite IH. done.
Qed.

Lemma for_fmap {A B : Type} (g : A → B) (xs : list A) (body : B → M unit)
    (st : state) :
  for_ (g <$> xs) body st = for_ xs (fun x => body (g x)) st.
Proof.
  revert st. induction xs as [|x xs IH]; intros st; [done|].
  simpl. unfold mbind, M_bind.
  destruct (body (g x) st) as [[[]|e] s]; [apply IH|done].
Qed.

Lemma for_flatten {A B : Type} (xs : list A) (f : A → list B)
    (body : B → M unit) (st : state) :
  for_ xs (fun x => for_ (f x) body) st = for_ (xs ≫= f) body st.
Proof.
  revert st. induction xs as [|x xs IH]; intros st; [done|].
  simpl. rewrite for_app. unfold mbind, M_bind.
  destruct (for_ (f x) body st) as [[[]|e] s]; [apply IH|done].
Qed.

Lemma for_product {A B : Type} (xs : list A) (ys : list B)
    (body : A → B → M unit) (st : state) :
  for_ xs (fun x => for_ ys (fun y => body x y)) st
  = for_ (x ← xs; (fun y => (x, y)) <$> ys) (fun p => body p.1 p.2) st.
Proof.
  rewrite <- for_flatten. apply for_ext. intros x s. by rewrite for_fmap.
Qed.

Lemma lookup_fmap_seq {A : Type} (f : nat → A) (n i : nat) :
  (f <$> seq 0 n) !! i = if decide (i < n)%nat then Some (f i) else None.
Proof.
  rewrite list_lookup_fmap. case_decide as Hi.
  - by rewrite lookup_seq_lt.
  - by rewrite lookup_seq_ge by lia.
Qed.

Lemma fmap_seq_const {A : Type} (c : A) (n : nat) :
  (fun _ => c) <$> seq 0 n = replicate n c.
Proof.
  apply list_eq. intros i. rewrite lookup_fmap_seq. case_decide.
  - by rewrite lookup_replicate_2.
  - symmetry. apply lookup_replicate_None. lia.
Qed.

(** ** The population loops compute [rasterize] *)

Section RasterizerFacts.
Context {Shape : Type}.
Variable contains : Shape → Q → Q → bool.
Variable land_shapes : list Shape.

Local Abbreviation is_land := (is_land contains land_shapes).
Local Abbreviation paints := (paints contains land_shapes).
Local Abbreviation land_cell := (land_cell contains land_shapes).
Local Abbreviation land_row := (land_row contains land_shapes).
Local Abbreviation land_grid := (land_grid contains land_shapes).
Local Abbreviation rasterize := (rasterize contains land_shapes).
Local Abbreviation populate := (populate contains land_shapes).
Local Abbreviation generate_globe := (generate_globe contains land_shapes).

Lemma land_grid_nil shift w h :
  land_grid shift w h [] = replicate (Z.to_nat h) (replicate (Z.to_nat w) " "%char).
Proof.
  unfold land_grid, land_row, land_cell. simpl.
  by rewrite !fmap_seq_const.
Qed.

Lemma land_grid_length shift w h ss : length (land_grid shift w h ss) = Z.to_nat h.
Proof. unfold land_grid. by rewrite length_fmap, length_seq. Qed.

Lemma land_row_length shift w h ss i : length (land_row shift w h ss i) = Z.to_nat w.
Proof. unfold land_row. by rewrite length_fmap, length_seq. Qed.

Lemma land_grid_lookup shift w h ss i :
  land_grid shift w h ss !! i
  = if decide (i < Z.to_nat h)%nat then Some (land_row shift w h ss i) else None.
Proof. apply lookup_fmap_seq. Qed.

Lemma land_row_lookup shift w h ss i j :
  land_row shift w h ss i !! j
  = if decide (j < Z.to_nat w)%nat then Some (land_cell shift w h ss i j) else None.
Proof. apply lookup_fmap_seq. Qed.

Lemma land_cell_snoc shift w h ss s i j :
  land_cell shift w h (ss ++ [s]) i j
  = if paints shift w h i j s then "#"%char else land_cell shift w h ss i j.
Proof.
  unfold land_cell. rewrite existsb_app. simpl. rewrite orb_false_r.
  destruct (existsb _ ss), (paints shift w h i j s); done.
Qed.

(** A sample outside the land leaves the grid as it is. *)
Lemma land_grid_snoc_ocean shift w h ss s :
  is_land s.2 s.1 = false → land_grid shift w h (ss ++ [s]) = land_grid shift w h ss.
Proof.
  intros Hs. unfold land_grid, land_row.
  apply list_fmap_ext. intros _ i _. apply list_fmap_ext. intros _ j _.
  rewrite land_cell_snoc. unfold paints. by rewrite Hs.
Qed.

(** A land sample marks the cell it maps to. *)
Lemma land_grid_snoc_land shift w h ss s x y :
  is_land s.2 s.1 = true →
  lat_lon_to_screen s.1 s.2 w h shift = Ok (x, y) →
  0 <= x < w → 0 <= y < h →
  <[Z.to_nat y := <[Z.to_nat x := "#"%char]> (land_row shift w h ss (Z.to_nat y))]>
    (land_grid shift w h ss)
  = land_grid shift w h (ss ++ [s]).
Proof.
  intros Hs Hxy Hx Hy.
  assert (Hp : ∀ i j, paints shift w h i j s
                      = (x =? Z.of_nat j) && (y =? Z.of_nat i)).
  { intros i j. unfold paints. by rewrite Hs, Hxy. }
  apply list_eq. intros i. rewrite land_grid_lookup.
  destruct (decide (i = Z.to_nat y)) as [->|Hi].
  - rewrite list_lookup_insert_eq by (rewrite land_grid_length; lia).
    case_decide; [|lia]. f_equal.
    apply list_eq. intros j. rewrite land_row_lookup.
    destruct (decide (j = Z.to_nat x)) as [->|Hj].
    + rewrite list_lookup_insert_eq by (rewrite land_row_length; lia).
      case_decide; [|lia]. f_equal. rewrite land_cell_snoc, Hp.
      destruct (Z.eqb_spec x (Z.of_nat (Z.to_nat x))); [|lia].
      destruct (Z.eqb_spec y (Z.of_nat (Z.to_nat y))); [done|lia].
    + rewrite list_lookup_insert_ne by done. rewrite land_row_lookup.
      case_decide; [|done]. f_equal. rewrite land_cell_snoc, Hp.
      destruct (Z.eqb_spec x (Z.of_nat j)); [lia|done].
  - rewrite list_lookup_insert_ne by done. rewrite land_grid_lookup.
    case_decide; [|done]. f_equal. unfold land_row.
    apply list_fmap_ext. intros _ j _. rewrite land_cell_snoc, Hp.
    destruct (Z.eqb_spec y (Z.of_nat i)); [lia|].
    by rewrite andb_false_r.
Qed.

Lemma samples_positive w h s : s ∈ samples w h → 0 < w ∧ 0 < h.
Proof.
  unfold samples, Np.linspace_samples. intros Hs.
  apply list_elem_of_bind in Hs as (lat & Hlon & Hlat).
  apply list_elem_of_fmap in Hlon as (lon & _ & Hlon).
  apply list_elem_of_fmap in Hlon as (j & _ & Hj).
  apply list_elem_of_fmap in Hlat as (i & _ & Hi).
  apply list_elem_of_lookup in Hi as (ki & Hi), Hj as (kj & Hj).
  apply Py_range_lookup in Hi as [_ Hi], Hj as [_ Hj]. lia.
Qed.

(** The sampling loops of lines 46-53, run on the array [land_cache]
    that still holds the blank grid. *)
Lemma sampling_loops_spec shift w h land_cache st :
  heap st !! land_cache = Some (land_grid shift w h []) →
  for_ (Np.linspace_samples (-90) 90 (h * 2)) (fun lat =>
    for_ (Np.linspace_samples (-180) 180 (w * 2)) (fun lon =>
      if is_land lon lat then
        '(x, y) ← lift (lat_lon_to_screen lat lon w h shift);
        Np.setitem land_cache y x "#"%char
      else mret tt)) st
  = (Ok tt, State (<[land_cache := rasterize shift w h]> (heap st)) (LAND_CACHE st)).
Proof.
  intros Hl.
  rewrite (for_product _ _ (fun lat lon =>
    if is_land lon lat then
      '(x, y) ← lift (lat_lon_to_screen lat lon w h shift);
      Np.setitem land_cache y x "#"%char
    else mret tt)).
  fold (samples w h).
  pose (I := fun (k : nat) (s : state) =>
    s = State (<[land_cache := land_grid shift w h (take k (samples w h))]> (heap st))
              (LAND_CACHE st)).
  edestruct (for_inv I (samples w h)) as (st' & Hrun & Hend); last first.
  - rewrite Hrun. f_equal. rewrite Hend. unfold rasterize. by rewrite firstn_all.
  - intros k p s Hk ->. unfold I.
    pose proof (proj2 (list_elem_of_lookup _ _) (ex_intro _ k Hk)) as Hin.
    apply samples_positive in Hin as [Hw Hh].
    rewrite (take_S_r _ _ _ Hk).
    set (ss := take k (samples w h)).
    set (s := State (<[land_cache := land_grid shift w h ss]> (heap st)) (LAND_CACHE st)).
    cbv beta. destruct (is_land p.2 p.1) eqn:Hland.
    + destruct (lat_lon_to_screen_bounds p.1 p.2 w h shift Hw Hh)
        as (x & y & Hxy & Hx & Hy).
      exists (State (<[land_cache := land_grid shift w h (ss ++ [p])]> (heap st))
                    (LAND_CACHE st)).
      split; [|done].
      rewrite (M_bind_Ok _ _ s s (x, y)) by (unfold lift; by rewrite Hxy).
      replace x with (Z.of_nat (Z.to_nat x)) at 1 by lia.
      replace y with (Z.of_nat (Z.to_nat y)) at 1 by lia.
      rewrite (setitem_ok land_cache (land_grid shift w h ss) (Z.to_nat y)
                 (Z.to_nat x) (land_row shift w h ss (Z.to_nat y))).
      * unfold s. simpl. rewrite insert_insert_eq.
        by rewrite (land_grid_snoc_land shift w h ss p x y).
      * apply lookup_insert_eq.
      * rewrite land_grid_lookup. case_decide; [done|lia].
      * rewrite land_row_length. lia.
    + exists s. split; [done|].
      unfold I, s. by rewrite land_grid_snoc_ocean.
  - unfold I. simpl take. rewrite (insert_id _ _ _ Hl). apply state_eta.
Qed.

(** A cache miss with valid dimensions: one array is allocated, filled
    with [rasterize] and stored under the key. *)
Lemma populate_spec shift w h st :
  0 <= w → 0 <= h →
  let l := fresh (dom (heap st)) in
  populate shift w h st
  = (Ok l, State (<[l := rasterize shift w h]> (heap st))
                 (<[(w, h) := l]> (LAND_CACHE st))).
Proof.
  intros Hw Hh l. unfold populate, Np.full.
  destruct (Z.ltb_spec h 0); [lia|]. destruct (Z.ltb_spec w 0); [lia|]. simpl orb.
  cbv iota.
  set (s1 := State (<[l := land_grid shift w h []]> (heap st)) (LAND_CACHE st)).
  rewrite (M_bind_Ok _ _ st s1 l).
  2:{ unfold Np.alloc, s1. by rewrite land_grid_nil. }
  unfold Np.linspace.
  destruct (Z.ltb_spec (h * 2) 0); [lia|]. destruct (Z.ltb_spec (w * 2) 0); [lia|].
  rewrite (M_bind_Ok _ _ s1 s1 (Np.linspace_samples (-90) 90 (h * 2))) by done.
  rewrite (M_bind_Ok _ _ s1 s1 (Np.linspace_samples (-180) 180 (w * 2))) by done.
  erewrite M_bind_Ok.
  2:{ apply sampling_loops_spec. apply lookup_insert_eq. }
  unfold s1. simpl. by rewrite insert_insert_eq.
Qed.

(** Negative dimensions are rejected by [np.full]; nothing is stored. *)
Lemma populate_negative shift w h st :
  w < 0 ∨ h < 0 → populate shift w h st = (Raise ValueError, st).
Proof.
  intros Hneg. unfold populate, Np.full.
  destruct (Z.ltb_spec h 0), (Z.ltb_spec w 0); try lia; done.
Qed.

Lemma generate_globe_miss shift w h st :
  LAND_CACHE st !! (w, h) = None → 0 <= w → 0 <= h →
  let land_cache := fresh (dom (heap st)) in
  let grid := rasterize shift w h in
  let l := fresh (dom (<[land_cache := grid]> (heap st))) in
  generate_globe shift w h st
  = (Ok l, State (<[l := grid]> (<[land_cache := grid]> (heap st)))
                 (<[(w, h) := land_cache]> (LAND_CACHE st))).
Proof.
  intros Hmiss Hw Hh land_cache grid l. unfold generate_globe.
  rewrite (M_bind_Ok _ _ st st None) by (unfold cache_lookup; by rewrite Hmiss).
  erewrite M_bind_Ok by (by apply populate_spec).
  unfold Np.copy. erewrite M_bind_Ok.
  2:{ unfold Np.deref. simpl. by rewrite lookup_insert_eq. }
  done.
Qed.

Lemma generate_globe_hit shift w h st land_cache grid :
  LAND_CACHE st !! (w, h) = Some land_cache →
  heap st !! land_cache = Some grid →
  generate_globe shift w h st
  = (Ok (fresh (dom (heap st))),
     State (<[fresh (dom (heap st)) := grid]> (heap st)) (LAND_CACHE st)).
Proof.
  intros Hhit Hgrid. unfold generate_globe.
  rewrite (M_bind_Ok _ _ st st (Some land_cache))
    by (unfold cache_lookup; by rewrite Hhit).
  rewrite (M_bind_Ok _ _ st st land_cache) by done.
  unfold Np.copy. erewrite M_bind_Ok.
  2:{ unfold Np.deref. by rewrite Hgrid. }
  done.
Qed.

End RasterizerFacts.

(** ** Shading, cell by cell *)

Lemma cell_shade_grid (hour : Z) (shift : Q) (width : Z) (a : ndarray) (y x : nat) :
  cell (shade_grid hour shift width a) y x
  = (fun c => if decide (x < Z.to_nat width)%nat
              then shade_cell hour shift width x c else c) <$> cell a y x.
Proof.
  unfold cell, shade_grid. rewrite list_lookup_fmap.
  destruct (a !! y) as [r|]; [|done]. simpl.
  unfold shade_row. by rewrite map_upto_lookup.
Qed.

(** What the shading pass leaves in an array whose rows are at least
    [width] long. *)
Lemma shading_cells (hour : Z) (globe : loc) (shift : Q) (width : Z)
    (a : ndarray) (st : state) :
  heap st !! globe = Some a →
  Forall (fun r => (Z.to_nat width ≤ length r)%nat) a →
  ∃ st', apply_day_night_shading hour globe shift width st = (Ok globe, st')
    ∧ heap st' !! globe = Some (shade_grid hour shift width a).
Proof.
  intros Hl Hshape. eexists. split.
  - by apply apply_day_night_shading_spec.
  - simpl. apply lookup_insert_eq.
Qed.

Lemma Py_int_inject (q : Q) (n : Z) : (q == inject_Z n)%Q → Py.int q = n.
Proof.
  unfold Qeq, Py.int. simpl. intros H.
  replace (Qnum q) with (n * Z.pos (Qden q)) by lia.
  apply Z.quot_mul. lia.
Qed.



(** C7.  For every land grid, rotation offset and time, the shading pass
    leaves the blank glyph in every cell that is blank (ocean) in its
    input, whatever the brightness computed for the column. *)
Theorem shading_keeps_ocean_blank (hour : Z) (globe : loc) (longitude_shift : Q)
    (width : Z) (a : ndarray) (st : state) :
  heap st !! globe = Some a →
  Forall (fun r => (Z.to_nat width ≤ length r)%nat) a →
  ∃ st' a',
    apply_day_night_shading hour globe longitude_shift width st = (Ok globe, st')
    ∧ heap st' !! globe = Some a'
    ∧ ∀ y x, cell a y x = Some " "%char → cell a' y x = Some " "%char.
Proof.
  intros Hl Hshape.
  destruct (shading_cells hour globe longitude_shift width a st Hl Hshape)
    as (st' & Hrun & Hst').
  exists st', (shade_grid hour longitude_shift width a).
  split; [done|]. split; [done|].
  intros y x Hc. rewrite cell_shade_grid, Hc. simpl.
  by case_decide.
Qed.

Lemma shading_keeps_ocean_blank_witness :
  ∃ st' a',
    apply_day_night_shading 7 0%nat 21 2 (State {[ 0%nat := [["#"; " "]; [" "; "#"]]%char ]} ∅)
    = (Ok 0%nat, st')
    ∧ heap st' !! 0%nat = Some a'
    ∧ ∀ y x, cell [["#"; " "]; [" "; "#"]]%char y x = Some " "%char
             → cell a' y x = Some " "%char.
Proof.
  apply (shading_keeps_ocean_blank 7 0%nat 21 2 [["#"; " "]; [" "; "#"]]%char).
  - reflexivity.
  - repeat constructor.
Defined.



Lemma ramp_ends : darkest_glyph = " "%char ∧ brightest_glyph = "@"%char.
Proof. split; reflexivity. Qed.





(** ** Frames: what a computation may change *)

Lemma mutates_only_refl (l : loc) (st : state) : mutates_only l st st.
Proof. by split. Qed.

Lemma mutates_only_trans (l : loc) (st1 st2 st3 : state) :
  mutates_only l st1 st2 → mutates_only l st2 st3 → mutates_only l st1 st3.
Proof.
  intros [Hc1 Hh1] [Hc2 Hh2]. split; [congruence|].
  intros l' Hne. by rewrite Hh2, Hh1.
Qed.

Section Respects.
Variable R : state → state → Prop.
Hypothesis R_refl : ∀ s, R s s.
Hypothesis R_trans : ∀ s1 s2 s3, R s1 s2 → R s2 s3 → R s1 s3.

Lemma respects_ret {A : Type} (a : A) : respects R (mret a : M A).
Proof using R_refl. intros st r st' [= _ <-]. apply R_refl. Qed.

Lemma respects_lift {A : Type} (x : result A) : respects R (lift x).
Proof using R_refl. intros st r st' [= _ <-]. apply R_refl. Qed.

Lemma respects_bind {A B : Type} (m : M A) (f : A → M B) :
  respects R m → (∀ a, respects R (f a)) → respects R (m ≫= f).
Proof using R_trans.
  intros Hm Hf st r st'. unfold mbind, M_bind.
  destruct (m st) as [[a|e] s1] eqn:E.
  - intros Hrun. eapply R_trans; [by eapply Hm|by eapply Hf].
  - intros [= _ <-]. by eapply Hm.
Qed.

(** What every iteration respects, the loop respects, however it ends. *)
Lemma respects_for {A : Type} (xs : list A) (body : A → M unit) :
  (∀ x, respects R (body x)) → respects R (for_ xs body).
Proof using R_refl R_trans.
  intros Hbody. induction xs as [|x xs IH]; simpl.
  - apply respects_ret.
  - apply respects_bind; [apply Hbody|]. intros _. apply IH.
Qed.

Lemma respects_deref (l : loc) : respects R (Np.deref l).
Proof using R_refl.
  intros st r st'. unfold Np.deref.
  destruct (heap st !! l); intros [= _ <-]; apply R_refl.
Qed.

End Respects.

Lemma respects_store (l : loc) (a : ndarray) :
  respects (mutates_only l) (Np.store l a).
Proof.
  intros st r st' [= _ <-]. split; [done|].
  intros l' Hne. simpl. by rewrite lookup_insert_ne.
Qed.

Lemma respects_getitem (l : loc) (y x : Z) :
  respects (mutates_only l) (Np.getitem l y x).
Proof.
  pose proof (mutates_only_refl l) as Hr. pose proof (mutates_only_trans l) as Ht.
  unfold Np.getitem.
  apply respects_bind; [done|by apply respects_deref|]. intros a.
  apply respects_bind; [done|by apply respects_lift|]. intros i.
  destruct (a !! i) as [row|]; [|by apply respects_lift].
  apply respects_bind; [done|by apply respects_lift|]. intros j.
  destruct (row !! j); [by apply respects_ret|by apply respects_lift].
Qed.

Lemma respects_setitem (l : loc) (y x : Z) (c : ascii) :
  respects (mutates_only l) (Np.setitem l y x c).
Proof.
  pose proof (mutates_only_refl l) as Hr. pose proof (mutates_only_trans l) as Ht.
  unfold Np.setitem.
  apply respects_bind; [done|by apply respects_deref|]. intros a.
  apply respects_bind; [done|by apply respects_lift|]. intros i.
  destruct (a !! i) as [row|]; [|by apply respects_lift].
  apply respects_bind; [done|by apply respects_lift|]. intros j.
  apply respects_store.
Qed.

(** The shading pass touches nothing but the array it is given, also when
    it stops with an exception. *)
Lemma shading_mutates_only (hour : Z) (globe : loc) (shift : Q) (width : Z) :
  respects (mutates_only globe) (apply_day_night_shading hour globe shift width).
Proof.
  pose proof (mutates_only_refl globe) as Hr.
  pose proof (mutates_only_trans globe) as Ht.
  unfold apply_day_night_shading.
  apply respects_bind; [done| |intros rows].
  { unfold Np.len. apply respects_bind; [done|by apply respects_deref|].
    intros a. by apply respects_ret. }
  apply respects_bind; [done| |intros _; by apply respects_ret].
  apply respects_for; [done..|]. intros y.
  apply respects_for; [done..|]. intros x.
  apply respects_bind; [done|apply respects_getitem|]. intros c.
  apply respects_bind; [done| |intros v; apply respects_setitem].
  destruct (negb _); [by apply respects_lift|by apply respects_ret].
Qed.

(** An array mutation away from the cache leaves every cached grid alone. *)
Lemma mutates_only_cached_grid (l : loc) (st st' : state) :
  (∀ key lc, LAND_CACHE st !! key = Some lc → lc ≠ l) →
  mutates_only l st st' →
  ∀ key, cached_grid st' key = cached_grid st key.
Proof.
  intros Hfresh [Hc Hh] key. unfold cached_grid. rewrite Hc.
  destruct (LAND_CACHE st !! key) as [lc|] eqn:E; [|done]. simpl.
  apply Hh. by eapply Hfresh.
Qed.

(** ** The cache across calls of the rasterizer *)

Lemma fresh_heap (h : gmap nat ndarray) : h !! fresh (dom h) = None.
Proof. apply not_elem_of_dom, is_fresh. Qed.

Lemma cache_ok_initial : cache_ok initial_state.
Proof. intros key l Hl. simpl in Hl. by rewrite lookup_empty in Hl. Qed.

(** Allocating an array keeps the cache well formed. *)
Lemma cache_ok_alloc (st : state) (a : ndarray) :
  cache_ok st →
  cache_ok (State (<[fresh (dom (heap st)) := a]> (heap st)) (LAND_CACHE st)).
Proof.
  intros Hok key lc Hkey. destruct (Hok key lc Hkey) as (g & Hg & Hland).
  exists g. split; [|done]. simpl. rewrite lookup_insert_ne; [done|].
  intros <-. by rewrite fresh_heap in Hg.
Qed.

(** Mutating an array that the cache does not refer to keeps the cache
    well formed. *)
Lemma cache_ok_mutates_only (l : loc) (st st' : state) :
  (∀ key lc, LAND_CACHE st !! key = Some lc → lc ≠ l) →
  mutates_only l st st' → cache_ok st → cache_ok st'.
Proof.
  intros Hfresh [Hc Hh] Hok key lc Hkey. rewrite Hc in Hkey.
  destruct (Hok key lc Hkey) as (g & Hg & Hland).
  exists g. split; [|done]. rewrite Hh; [done|]. by eapply Hfresh.
Qed.

Section RasterizerClaims.
Context {Shape : Type}.
Variable contains : Shape → Q → Q → bool.
Variable land_shapes : list Shape.

Local Abbreviation rasterize := (rasterize contains land_shapes).
Local Abbreviation generate_globe := (generate_globe contains land_shapes).

Lemma rasterize_is_land_grid shift w h : is_land_grid (w, h) (rasterize shift w h).
Proof.
  unfold is_land_grid, rasterize. split; [apply land_grid_length|].
  apply Forall_forall. intros r Hr. unfold land_grid in Hr.
  apply list_elem_of_fmap in Hr as (i & -> & _).
  split; [apply land_row_length|].
  apply Forall_forall. intros c Hc. unfold land_row in Hc.
  apply list_elem_of_fmap in Hc as (j & -> & _).
  unfold land_cell. destruct (existsb _ _); [by right|by left].
Qed.

(** One call of the rasterizer on a well-formed state, with valid
    dimensions. *)
Lemma generate_globe_run shift w h st :
  cache_ok st → 0 <= w → 0 <= h →
  ∃ l st' land_cache grid,
    generate_globe shift w h st = (Ok l, st')
    ∧ LAND_CACHE st' !! (w, h) = Some land_cache
    ∧ heap st' !! land_cache = Some grid
    ∧ heap st' !! l = Some grid
    ∧ is_land_grid (w, h) grid
    ∧ (∀ key lc, LAND_CACHE st' !! key = Some lc → lc ≠ l)
    ∧ cache_ok st'
    ∧ (LAND_CACHE st !! (w, h) = None → grid = rasterize shift w h)
    ∧ (is_Some (LAND_CACHE st !! (w, h)) → LAND_CACHE st' = LAND_CACHE st).
Proof.
  intros Hok Hw Hh. destruct (LAND_CACHE st !! (w, h)) as [lc|] eqn:Hkey.
  - destruct (Hok _ _ Hkey) as (grid & Hgrid & Hland).
    eexists _, _, lc, grid. split; [by eapply generate_globe_hit|].
    simpl. split; [done|].
    assert (Hne : ∀ l', is_Some (heap st !! l') → l' ≠ fresh (dom (heap st))).
    { intros l' [g Hg] ->. by rewrite fresh_heap in Hg. }
    split; [by rewrite lookup_insert_ne by (symmetry; by apply Hne)|].
    split; [apply lookup_insert_eq|]. split; [done|].
    split. { intros key l' Hl'. apply Hne.
             destruct (Hok _ _ Hl') as (g & -> & _). done. }
    split; [by apply cache_ok_alloc|]. split; [done|done].
  - set (land_cache := fresh (dom (heap st))).
    set (grid := rasterize shift w h).
    set (h1 := <[land_cache := grid]> (heap st)).
    set (l := fresh (dom h1)).
    assert (Hl : l ≠ land_cache).
    { intros E. pose proof (fresh_heap h1) as Hf. fold l in Hf.
      rewrite E in Hf. unfold h1 in Hf. by rewrite lookup_insert_eq in Hf. }
    exists l, (State (<[l := grid]> h1) (<[(w, h) := land_cache]> (LAND_CACHE st))),
      land_cache, grid.
    split; [by apply generate_globe_miss|]. simpl.
    split; [apply lookup_insert_eq|].
    split. { rewrite lookup_insert_ne by done. apply lookup_insert_eq. }
    split; [apply lookup_insert_eq|].
    split; [apply rasterize_is_land_grid|].
    assert (Hold : ∀ key lc, LAND_CACHE st !! key = Some lc →
              lc ≠ land_cache ∧ lc ≠ l).
    { intros key lc Hlc. destruct (Hok _ _ Hlc) as (g & Hg & _).
      split; intros ->.
      - unfold land_cache in Hg. by rewrite fresh_heap in Hg.
      - pose proof (fresh_heap h1) as Hf. fold l in Hf. unfold h1 in Hf.
        rewrite lookup_insert_ne in Hf; [congruence|].
        intros E. rewrite <- E in Hg. unfold land_cache in Hg.
        by rewrite fresh_heap in Hg. }
    split.
    { intros key lc. rewrite lookup_insert. case_decide.
      - intros [= <-]. done.
      - intros Hlc. by apply (Hold key lc). }
    split; [|split; [done|by intros [? [=]]]].
    intros key lc. simpl. rewrite lookup_insert. case_decide as Hk.
    + intros [= <-]. subst key. exists grid. split; [|apply rasterize_is_land_grid].
      simpl. rewrite lookup_insert_ne by done. apply lookup_insert_eq.
    + intros Hlc. destruct (Hok _ _ Hlc) as (g & Hg & Hland).
      destruct (Hold _ _ Hlc) as [Hn1 Hn2].
      exists g. split; [|done]. simpl. unfold h1.
      by rewrite !lookup_insert_ne by done.
Qed.



(** C5.  Two calls of the rasterizer with the same (width, height), under
    any two rotation offsets, return equal grids: the second call finds
    the key in the cache, leaves the cache as it is, and returns a copy
    of the grid that the first call returned. *)
Theorem generate_globe_twice (shift1 shift2 : Q) (width height : Z) (st : state) :
  cache_ok st → 0 <= width → 0 <= height →
  ∃ l1 st1 l2 st2 grid,
    generate_globe shift1 width height st = (Ok l1, st1)
    ∧ generate_globe shift2 width height st1 = (Ok l2, st2)
    ∧ heap st1 !! l1 = Some grid
    ∧ heap st2 !! l2 = Some grid
    ∧ cached_grid st1 (width, height) = Some grid
    ∧ LAND_CACHE st2 = LAND_CACHE st1.
Proof.
  intros Hok Hw Hh.
  destruct (generate_globe_run shift1 width height st Hok Hw Hh)
    as (l1 & st1 & lc & grid & Hrun1 & Hkey & Hlc & Hl1 & _).
  eexists l1, st1, _, _, grid. split; [done|].
  split; [by eapply generate_globe_hit|]. simpl.
  split; [done|]. split; [apply lookup_insert_eq|].
  split; [|done]. unfold cached_grid. by rewrite Hkey.
Qed.

(** The same holds in the rendering loop, where the grid of the first call
    is shaded in place before the next call: the next call still returns
    the grid as the first call returned it. *)
Lemma generate_globe_after_shading (shift1 shift2 : Q) (width height : Z) (st : state) :
  cache_ok st → 0 <= width → 0 <= height →
  ∃ l1 st1 grid,
    generate_globe shift1 width height st = (Ok l1, st1)
    ∧ heap st1 !! l1 = Some grid
    ∧ ∀ hour shift w r st1',
        apply_day_night_shading hour l1 shift w st1 = (r, st1') →
        ∃ l2 st2,
          generate_globe shift2 width height st1' = (Ok l2, st2)
          ∧ heap st2 !! l2 = Some grid.
Proof.
  intros Hok Hw Hh.
  destruct (generate_globe_run shift1 width height st Hok Hw Hh)
    as (l1 & st1 & lc & grid & Hrun1 & Hkey & Hlc & Hl1 & _ & Hfresh & _).
  exists l1, st1, grid. split; [done|]. split; [done|].
  intros hour shift w r st1' Hshade.
  apply shading_mutates_only in Hshade as [Hcache Hheap].
  eexists _, _. split.
  - eapply generate_globe_hit; [by rewrite Hcache|].
    rewrite Hheap; [exact Hlc|]. by eapply Hfresh.
  - simpl. apply lookup_insert_eq.
Qed.

(** C6.  The grid that the rasterizer returns is a fresh copy of the
    cached grid: it holds the same glyphs, and whatever is then written
    into it, by the shading pass or in any other way, every grid in the
    cache stays as it is. *)
Theorem generate_globe_returns_fresh_copy (longitude_shift : Q)
    (width height : Z) (st : state) :
  cache_ok st → 0 <= width → 0 <= height →
  ∃ l st' grid,
    generate_globe longitude_shift width height st = (Ok l, st')
    ∧ heap st' !! l = Some grid
    ∧ cached_grid st' (width, height) = Some grid
    ∧ (∀ st'', mutates_only l st' st'' →
         ∀ key, cached_grid st'' key = cached_grid st' key)
    ∧ (∀ hour shift w r st'',
         apply_day_night_shading hour l shift w st' = (r, st'') →
         ∀ key, cached_grid st'' key = cached_grid st' key).
Proof.
  intros Hok Hw Hh.
  destruct (generate_globe_run longitude_shift width height st Hok Hw Hh)
    as (l & st' & lc & grid & Hrun & Hkey & Hlc & Hl & _ & Hfresh & _).
  exists l, st', grid. split; [done|]. split; [done|].
  split; [unfold cached_grid; by rewrite Hkey|].
  split.
  - intros st'' Hmut. by apply (mutates_only_cached_grid l).
  - intros hour shift w r st'' Hshade.
    apply (mutates_only_cached_grid l); [done|].
    by eapply shading_mutates_only.
Qed.

(** C10.  Every cell of the grid that the rasterizer returns holds the
    blank glyph or the land marker. *)
Theorem generate_globe_cells (longitude_shift : Q) (width height : Z) (st : state) :
  cache_ok st → 0 <= width → 0 <= height →
  ∃ l st' grid,
    generate_globe longitude_shift width height st = (Ok l, st')
    ∧ heap st' !! l = Some grid
    ∧ ∀ y x c, cell grid y x = Some c → c = " "%char ∨ c = "#"%char.
Proof.
  intros Hok Hw Hh.
  destruct (generate_globe_run longitude_shift width height st Hok Hw Hh)
    as (l & st' & lc & grid & Hrun & _ & _ & Hl & [_ Hland] & _).
  exists l, st', grid. split; [done|]. split; [done|].
  intros y x c. unfold cell. destruct (grid !! y) as [r|] eqn:Hr; [|done].
  simpl. intros Hc.
  pose proof (Forall_lookup_1 _ _ _ _ Hland Hr) as [_ Hrow].
  exact (Forall_lookup_1 _ _ _ _ Hrow Hc).
Qed.

End RasterizerClaims.

(** ** The rasterizer on the example land region *)



Lemma generate_globe_twice_witness :
  ∃ l1 st1 l2 st2 grid,
    generate_globe box_contains example_land 0 20 10 initial_state = (Ok l1, st1)
    ∧ generate_globe box_contains example_land 3 20 10 st1 = (Ok l2, st2)
    ∧ heap st1 !! l1 = Some grid
    ∧ heap st2 !! l2 = Some grid
    ∧ cached_grid st1 (20, 10) = Some grid
    ∧ LAND_CACHE st2 = LAND_CACHE st1.
Proof.
  apply (generate_globe_twice box_contains example_land 0 3 20 10 initial_state);
    [apply cache_ok_initial|lia|lia].
Defined.

Lemma generate_globe_returns_fresh_copy_witness :
  ∃ l st' grid,
    generate_globe box_contains example_land 0 20 10 initial_state = (Ok l, st')
    ∧ heap st' !! l = Some grid
    ∧ cached_grid st' (20, 10) = Some grid
    ∧ (∀ st'', mutates_only l st' st'' →
         ∀ key, cached_grid st'' key = cached_grid st' key)
    ∧ (∀ hour shift w r st'',
         apply_day_night_shading hour l shift w st' = (r, st'') →
         ∀ key, cached_grid st'' key = cached_grid st' key).
Proof.
  apply (generate_globe_returns_fresh_copy box_contains example_land 0 20 10
           initial_state); [apply cache_ok_initial|lia|lia].
Defined.

Lemma generate_globe_cells_witness :
  ∃ l st' grid,
    generate_globe box_contains example_land 0 20 10 initial_state = (Ok l, st')
    ∧ heap st' !! l = Some grid
    ∧ ∀ y x c, cell grid y x = Some c → c = " "%char ∨ c = "#"%char.
Proof.
  apply (generate_globe_cells box_contains example_land 0 20 10 initial_state);
    [apply cache_ok_initial|lia|lia].
Defined.

(** ** Row refresh *)

Lemma slice_to_no_newline (row : list ascii) (width : Z) :
  newline ∉ row → filter (fun c => c = newline) (Py.slice_to row width) = [].
Proof.
  intros Hrow. destruct (filter _ _) as [|c rest] eqn:E; [done|].
  assert (Hc : c ∈ filter (fun c => c = newline) (Py.slice_to row width)).
  { rewrite E. by left. }
  apply list_elem_of_filter in Hc as [-> Hc]. destruct Hrow.
  unfold Py.slice_to in Hc. destruct (0 <=? width); by eapply subseteq_take.
Qed.

Lemma line_newline_count (row : list ascii) (width : Z) :
  newline ∉ row →
  length (filter (fun c => c = newline) (Py.slice_to row width ++ [newline])) = 1%nat.
Proof.
  intros Hrow. by rewrite filter_app, length_app, (slice_to_no_newline _ _ Hrow).
Qed.

(** The first frame: row after row, each closed by a newline. *)
Lemma drawn_rows_redraw_all (cy : Z) (globe_strings : frame) (width : Z) :
  Forall (fun row => newline ∉ row) globe_strings →
  drawn_rows cy (redraw_all globe_strings width)
  = (fun j => cy + Z.of_nat j) <$> seq 0 (length globe_strings).
Proof.
  revert cy. induction globe_strings as [|row rest IH]; intros cy Hrows; [done|].
  apply Forall_cons in Hrows as [Hrow Hrest].
  cbn [redraw_all fmap list_fmap length seq drawn_rows].
  f_equal; [lia|]. rewrite (line_newline_count _ _ Hrow).
  rewrite <- fmap_S_seq, <- list_fmap_compose.
  change (list_fmap _ _ ?f rest) with (redraw_all rest width).
  rewrite (IH _ Hrest). apply list_fmap_ext. intros _ j _. simpl. lia.
Qed.

(** Later frames: the loop started at counter [k] draws exactly the rows
    that differ from the previous frame. *)
Lemma redraw_changed_spec (prev : frame) (k : nat) (cur : frame) (width cy : Z) :
  (k + length cur ≤ length prev)%nat →
  ∃ calls,
    redraw_changed prev (Z.of_nat k) cur width = (calls, Ok tt)
    ∧ ∀ z, z ∈ drawn_rows cy calls
           ↔ ∃ j row, cur !! j = Some row ∧ z = Z.of_nat (k + j)
                      ∧ prev !! (k + j)%nat ≠ Some row.
Proof.
  revert k cy. induction cur as [|row rest IH]; intros k cy Hlen.
  - exists []. split; [done|]. intros z. split.
    + by intros ?%elem_of_nil.
    + by intros (j & r & ? & _).
  - simpl in Hlen. simpl redraw_changed. rewrite Py_index_nat by lia.
    replace (Z.of_nat k + 1) with (Z.of_nat (S k)) by lia.
    assert (Hdiff : ∀ cy' calls' z,
      (∀ z, z ∈ drawn_rows cy' calls'
            ↔ ∃ j r, rest !! j = Some r ∧ z = Z.of_nat (S k + j)
                     ∧ prev !! (S k + j)%nat ≠ Some r) →
      (z = Z.of_nat k ∧ prev !! k ≠ Some row) ∨ z ∈ drawn_rows cy' calls'
      ↔ ∃ j r, (row :: rest) !! j = Some r ∧ z = Z.of_nat (k + j)
               ∧ prev !! (k + j)%nat ≠ Some r).
    { intros cy' calls' z Hrec. rewrite Hrec. split.
      - intros [[-> Hne]|(j & r & Hj & -> & Hne)].
        + exists 0%nat, row. rewrite Nat.add_0_r. done.
        + exists (S j), r. rewrite Nat.add_succ_r. done.
      - intros ([|j] & r & Hj & -> & Hne).
        + left. simpl in Hj. injection Hj as <-. rewrite Nat.add_0_r in *. done.
        + right. exists j, r. rewrite Nat.add_succ_r in *. done. }
    case_bool_decide as Hne.
    + destruct (IH (S k) (Z.of_nat k + Z.of_nat (length (filter (fun c => c = newline)
                  (Py.slice_to row width))))) as (calls' & -> & Hrec); [lia|].
      eexists. split; [done|]. intros z. simpl. rewrite elem_of_cons.
      rewrite <- (Hdiff _ _ z Hrec). tauto.
    + destruct (IH (S k) cy) as (calls' & -> & Hrec); [lia|].
      eexists. split; [done|]. intros z. simpl.
      rewrite <- (Hdiff _ _ z Hrec). tauto.
Qed.

Lemma redraw_changed_same (prev : frame) (k : nat) (cur : frame) (width : Z) :
  (∀ j row, cur !! j = Some row → prev !! (k + j)%nat = Some row) →
  redraw_changed prev (Z.of_nat k) cur width = ([], Ok tt).
Proof.
  revert k. induction cur as [|row rest IH]; intros k Hsame; [done|].
  simpl. pose proof (Hsame 0%nat row eq_refl) as H0. rewrite Nat.add_0_r in H0.
  rewrite Py_index_nat by (by eapply lookup_lt_Some).
  rewrite bool_decide_eq_false_2 by (by intros []).
  replace (Z.of_nat k + 1) with (Z.of_nat (S k)) by lia.
  rewrite IH; [done|]. intros j r Hj. rewrite Nat.add_succ_l, <- Nat.add_succ_r.
  by apply Hsame.
Qed.

(** With a previous frame of the height of the current one, the refresh
    completes and draws exactly the rows that differ. *)
Lemma redraw_same_height (prev globe_strings : frame) (width cy : Z) :
  length prev = length globe_strings →
  ∃ calls,
    redraw (Some prev) globe_strings width = (calls, Ok tt)
    ∧ ∀ z, z ∈ drawn_rows cy calls
           ↔ ∃ i : nat, z = Z.of_nat i ∧ (i < length globe_strings)%nat
                        ∧ prev !! i ≠ globe_strings !! i.
Proof.
  intros Hlen. destruct prev as [|p prev'].
  - destruct globe_strings; [|done]. exists []. split; [done|].
    intros z. split; [by intros ?%elem_of_nil|].
    intros (i & _ & Hi & _). simpl in Hi. lia.
  - destruct (redraw_changed_spec (p :: prev') 0 globe_strings width cy)
      as (calls & Hrun & Hrows); [lia|].
    exists calls. split; [exact Hrun|]. intros z. rewrite Hrows. split.
    + intros (j & row & Hj & -> & Hne). exists j.
      split; [done|]. split; [by eapply lookup_lt_Some|].
      simpl in Hne. by rewrite Hj.
    + intros (i & -> & Hi & Hne).
      destruct (lookup_lt_is_Some_2 globe_strings i Hi) as [row Hrow].
      exists i, row. split; [done|]. split; [done|].
      simpl. by rewrite <- Hrow.
Qed.

(** C8.  Without a previous frame the refresh draws every row, one after
    the other from the top.  With a previous frame of the same height it
    draws exactly the rows whose glyph sequence differs from the previous
    row at the same index; with a previous frame equal to the current one
    it makes no call at all. *)
Theorem redraw_spec (globe_strings : frame) (width : Z) :
  (Forall (fun row => newline ∉ row) globe_strings →
   ∃ calls,
     redraw None globe_strings width = (calls, Ok tt)
     ∧ drawn_rows 0 calls = Py.range (Z.of_nat (length globe_strings)))
  ∧ (∀ prev cy,
       length prev = length globe_strings →
       ∃ calls,
         redraw (Some prev) globe_strings width = (calls, Ok tt)
         ∧ ∀ z, z ∈ drawn_rows cy calls
                ↔ ∃ i : nat, z = Z.of_nat i ∧ (i < length globe_strings)%nat
                             ∧ prev !! i ≠ globe_strings !! i)
  ∧ redraw (Some globe_strings) globe_strings width = ([], Ok tt).
Proof.
  split; [|split].
  - intros Hrows. eexists. split; [done|].
    rewrite (drawn_rows_redraw_all 0 _ _ Hrows). unfold Py.range.
    rewrite Nat2Z.id. apply list_fmap_ext. intros _ j _. lia.
  - intros prev cy. apply redraw_same_height.
  - destruct globe_strings as [|row rest]; [done|].
    apply (redraw_changed_same (row :: rest) 0 (row :: rest)). by intros j r.
Qed.

Lemma redraw_spec_witness :
  (∃ calls,
     redraw None [[" "; "@"]; ["#"; " "]]%char 2 = (calls, Ok tt)
     ∧ drawn_rows 0 calls = Py.range (Z.of_nat 2))
  ∧ (∃ calls,
       redraw (Some [[" "; "@"]; [" "; " "]]%char) [[" "; "@"]; ["#"; " "]]%char 2
       = (calls, Ok tt)
       ∧ ∀ z, z ∈ drawn_rows 0 calls
              ↔ ∃ i : nat, z = Z.of_nat i ∧ (i < 2)%nat
                  ∧ [[" "; "@"]; [" "; " "]]%char !! i
                    ≠ [[" "; "@"]; ["#"; " "]]%char !! i)
  ∧ redraw (Some [[" "; "@"]; ["#"; " "]]%char) [[" "; "@"]; ["#"; " "]]%char 2
    = ([], Ok tt).
Proof.
  destruct (redraw_spec [[" "; "@"]; ["#"; " "]]%char 2) as (Hfirst & Hnext & Hsame).
  split; [|split].
  - apply Hfirst. apply (bool_decide_unpack _). by vm_compute.
  - apply (Hnext [[" "; "@"]; [" "; " "]]%char 0). reflexivity.
  - exact Hsame.
Defined.

(** ** The rendering loop keeps the cache well formed *)

Lemma shade_grid_length (hour : Z) (shift : Q) (width : Z) (a : ndarray) :
  length (shade_grid hour shift width a) = length a.
Proof. unfold shade_grid. by rewrite length_fmap. Qed.

Lemma ramp_glyph_not_newline (i : Z) : ramp_glyph i ≠ newline.
Proof.
  unfold ramp_glyph. destruct (ASCII_SHADES !! Z.to_nat i) as [c|] eqn:E; [|done].
  apply list_elem_of_lookup_2 in E. simpl. intros ->. revert E.
  apply (bool_decide_unpack _). by vm_compute.
Qed.

Lemma shade_row_no_newline (hour : Z) (shift : Q) (width : Z) (r : list ascii) :
  newline ∉ r → newline ∉ shade_row hour shift width r.
Proof.
  intros Hr Hin. apply list_elem_of_lookup in Hin as (j & Hj).
  unfold shade_row in Hj. rewrite map_upto_lookup in Hj.
  destruct (r !! j) as [c|] eqn:Hc; [|done]. simpl in Hj.
  apply list_elem_of_lookup_2 in Hc.
  case_decide; [|congruence].
  unfold shade_cell in Hj. destruct (Ascii.eqb c " "); [done|].
  injection Hj as Hj. by apply ramp_glyph_not_newline in Hj.
Qed.

Section RenderLoopFacts.
Context {Shape : Type}.
Variable contains : Shape → Q → Q → bool.
Variable land_shapes : list Shape.

(** Every iteration obtains a frame of the height of the window, free of
    newlines, and leaves the cache well formed. *)
Lemma render_frame_spec (maxy maxx hour longitude_shift : Z) (st : state) :
  let height := Z.max 10 (Z.min (maxy - 2) 40) in
  cache_ok st →
  ∃ globe_strings st',
    render_frame contains land_shapes (maxy, maxx) hour longitude_shift st
    = (Ok globe_strings, st')
    ∧ length globe_strings = Z.to_nat height
    ∧ Forall (fun row => newline ∉ row) globe_strings
    ∧ cache_ok st'.
Proof.
  intros height Hok. unfold render_frame. fold height.
  set (width := Z.max 20 (Z.min (maxx - 2) 80)).
  destruct (generate_globe_run contains land_shapes (inject_Z longitude_shift)
              width height st Hok) as
    (l & st1 & lc & grid & Hrun & _ & _ & Hl & [Hrows Hland] & Hfresh & Hok1 & _);
    [lia..|].
  simpl in Hrows.
  destruct (shading_cells hour l (inject_Z longitude_shift) width grid st1 Hl)
    as (st2 & Hshade & Hl2).
  { eapply Forall_impl; [exact Hland|]. simpl. intros r [-> _]. done. }
  exists (shade_grid hour (inject_Z longitude_shift) width grid), st2.
  split; [|split; [|split]].
  - rewrite (M_bind_Ok _ _ _ _ _ Hrun), (M_bind_Ok _ _ _ _ _ Hshade).
    unfold Np.deref. by rewrite Hl2.
  - by rewrite shade_grid_length.
  - unfold shade_grid. apply Forall_fmap.
    eapply Forall_impl; [exact Hland|]. simpl. intros r [_ Hr].
    apply shade_row_no_newline. intros Hin.
    pose proof (proj1 (Forall_forall _ _) Hr _ Hin) as [Hc|Hc]; discriminate.
  - eapply cache_ok_mutates_only; [exact Hfresh| |exact Hok1].
    by eapply shading_mutates_only.
Qed.

End RenderLoopFacts.

Lemma next_longitude_shift_range (longitude_shift : Z) :
  0 <= next_longitude_shift longitude_shift < 360.
Proof. unfold next_longitude_shift. apply Z.mod_pos_bound. lia. Qed.

(** * Further properties of the code *)

(** ** Truncation and remainder on rationals *)

Lemma Qfloor_unique (q : Q) (z : Z) :
  (inject_Z z <= q)%Q → (q < inject_Z (z + 1))%Q → Qfloor q = z.
Proof.
  intros Hlo Hhi.
  pose proof (Qfloor_le q) as Hfl. pose proof (Qlt_floor q) as Hfu.
  assert (H1 : (inject_Z z < inject_Z (Qfloor q + 1))%Q) by lra.
  assert (H2 : (inject_Z (Qfloor q) < inject_Z (z + 1))%Q) by lra.
  rewrite <- Zlt_Qlt in H1, H2. lia.
Qed.

Lemma Qfloor_plus_Z (q : Q) (k : Z) : Qfloor (q + inject_Z k) = Qfloor q + k.
Proof.
  pose proof (Qfloor_le q) as Hfl. pose proof (Qlt_floor q) as Hfu.
  apply Qfloor_unique.
  - rewrite inject_Z_plus. lra.
  - rewrite inject_Z_plus in *. rewrite inject_Z_plus. lra.
Qed.

(** [int] truncates: it is the floor of the magnitude, with the sign. *)
Lemma Py_int_sgn_floor (q : Q) : Py.int q = Z.sgn (Qnum q) * Qfloor (Qabs q).
Proof.
  destruct q as [n d]. unfold Py.int, Qabs, Qfloor. simpl.
  rewrite Z.quot_div by lia. replace (Z.sgn (Z.pos d)) with 1 by lia.
  rewrite (Z.abs_eq (Z.pos d)) by lia. lia.
Qed.



Lemma Py_int_floor (q : Q) : (0 <= q)%Q → Py.int q = Qfloor q.
Proof.
  intros Hq. rewrite Py_int_sgn_floor, (Qabs_pos q Hq).
  unfold Qle in Hq. simpl in Hq.
  destruct (Z.eq_dec (Qnum q) 0) as [E|E].
  - destruct q as [n d]. simpl in *. subst n. reflexivity.
  - replace (Z.sgn (Qnum q)) with 1 by lia. lia.
Qed.

Lemma Py_int_neg (q : Q) : (q <= 0)%Q → Py.int q = - Qfloor (- q).
Proof.
  intros Hq. rewrite Py_int_sgn_floor, (Qabs_neg q Hq).
  unfold Qle in Hq. simpl in Hq.
  destruct (Z.eq_dec (Qnum q) 0) as [E|E].
  - destruct q as [n d]. simpl in *. subst n. reflexivity.
  - replace (Z.sgn (Qnum q)) with (-1) by lia. lia.
Qed.

(** Truncation is monotone. *)
Lemma Py_int_mono (q q' : Q) : (q <= q')%Q → Py.int q <= Py.int q'.
Proof.
  intros H.
  destruct (Qlt_le_dec q 0) as [Hq|Hq], (Qlt_le_dec q' 0) as [Hq'|Hq'].
  - rewrite !Py_int_neg by lra.
    assert (Qfloor (- q') <= Qfloor (- q)) by (apply Qfloor_resp_le; lra). lia.
  - rewrite Py_int_neg, Py_int_floor by lra.
    assert (Qfloor 0 <= Qfloor (- q)) by (apply Qfloor_resp_le; lra).
    assert (Qfloor 0 <= Qfloor q') by (apply Qfloor_resp_le; lra).
    change (Qfloor 0) with 0 in *. lia.
  - lra.
  - rewrite !Py_int_floor by lra. by apply Qfloor_resp_le.
Qed.



(** The remainder is the one value of [0, b) that differs from the
    dividend by a multiple of the (positive) divisor. *)
Lemma Py_fmod_unique (a b r : Q) (k : Z) :
  (0 < b)%Q → (0 <= r)%Q → (r < b)%Q → (a == r + b * inject_Z k)%Q →
  (Py.fmod a b == r)%Q.
Proof.
  intros Hb Hr0 Hrb Ha. unfold Py.fmod.
  assert (Hq : (a / b == r / b + inject_Z k)%Q).
  { rewrite Ha. field. intros E. rewrite E in Hb. exact (Qlt_irrefl 0 Hb). }
  assert (Hfl : Qfloor (a / b) = k).
  { rewrite Hq, Qfloor_plus_Z.
    assert (Qfloor (r / b) = 0); [|lia].
    apply Qfloor_unique.
    - change (inject_Z 0) with 0%Q. apply Qle_shift_div_l; lra.
    - change (inject_Z (0 + 1)) with 1%Q. apply Qlt_shift_div_r; lra. }
  rewrite Hfl, Ha. ring.
Qed.


(** ** The coordinate mapper: periodicity, poles, orientation *)




(** X2.  North is up: of two points, the one further north is never drawn
    in a lower row, whatever their longitudes and the rotation. *)
Theorem lat_lon_to_screen_row_monotone (lat1 lon1 s1 lat2 lon2 s2 : Q)
    (width height c1 r1 c2 r2 : Z) :
  (lat1 <= lat2)%Q →
  lat_lon_to_screen lat1 lon1 width height s1 = Ok (c1, r1) →
  lat_lon_to_screen lat2 lon2 width height s2 = Ok (c2, r2) →
  r2 <= r1.
Proof.
  intros Hlat. unfold lat_lon_to_screen, Py.mod_. cbv zeta.
  destruct (width =? 0); [done|]. intros [= _ <-] [= _ <-].
  assert (Hy : 0 < height →
    Py.int (((90 - lat2) / 180) * inject_Z height)
    <= Py.int (((90 - lat1) / 180) * inject_Z height)).
  { intros Hh. apply Py_int_mono. apply Qmult_le_compat_r.
    - apply Qmult_le_compat_r; [lra|]. by vm_compute.
    - change 0%Q with (inject_Z 0). rewrite <- Zle_Qle. lia. }
  destruct (Z.lt_ge_cases 0 height) as [Hh|Hh]; [specialize (Hy Hh)|]; lia.
Qed.

Lemma lat_lon_to_screen_row_monotone_witness :
  ∃ c1 r1 c2 r2,
    lat_lon_to_screen (-30) 0 20 10 0 = Ok (c1, r1)
    ∧ lat_lon_to_screen 60 100 20 10 3 = Ok (c2, r2)
    ∧ r2 <= r1.
Proof.
  exists 10, 6, 15, 1. split; [reflexivity|]. split; [reflexivity|].
  apply (lat_lon_to_screen_row_monotone (-30) 0 0 60 100 3 20 10 10 6 15 1);
    [by vm_compute|reflexivity|reflexivity].
Defined.

(** X3.  The poles: latitude 90 is drawn in the top row, and latitude -90,
    whose unclamped row is [height], in the bottom row [height - 1]. *)
Theorem lat_lon_to_screen_poles (lon longitude_shift : Q) (width height : Z) :
  width ≠ 0 → 0 < height →
  ∃ col,
    lat_lon_to_screen 90 lon width height longitude_shift = Ok (col, 0)
    ∧ lat_lon_to_screen (-90) lon width height longitude_shift
      = Ok (col, height - 1).
Proof.
  intros Hw Hh. unfold lat_lon_to_screen, Py.mod_. cbv zeta.
  destruct (Z.eqb_spec width 0); [done|].
  eexists. split; simpl; do 2 f_equal.
  - rewrite (Py_int_inject _ 0); [lia|].
    setoid_replace ((90 - 90) / 180)%Q with 0%Q using relation Qeq by reflexivity.
    ring.
  - rewrite (Py_int_inject _ height); [lia|].
    setoid_replace ((90 - - (90)) / 180)%Q with 1%Q using relation Qeq by reflexivity.
    ring.
Qed.

Lemma lat_lon_to_screen_poles_witness :
  ∃ col,
    lat_lon_to_screen 90 12 20 10 3 = Ok (col, 0)
    ∧ lat_lon_to_screen (-90) 12 20 10 3 = Ok (col, 10 - 1).
Proof. apply (lat_lon_to_screen_poles 12 3 20 10); lia. Defined.

(** The shifted longitude is the representative in (-180, 180]. *)
Lemma lon_shifted_unique (lon longitude_shift r : Q) (k : Z) :
  (- (180) < r)%Q → (r <= 180)%Q →
  (lon + longitude_shift == r + 360 * inject_Z k)%Q →
  (lon_shifted lon longitude_shift == r)%Q.
Proof.
  intros Hlo Hhi Hsum. unfold lon_shifted. cbv zeta.
  destruct (Qlt_le_dec r 0) as [Hneg|Hpos].
  - assert (HF : (Py.fmod (lon + longitude_shift) 360 == r + 360)%Q).
    { apply (Py_fmod_unique _ _ _ (k - 1)); [lra..|].
      etransitivity; [exact Hsum|]. replace (k - 1) with (k + -1) by lia.
      rewrite inject_Z_plus. change (inject_Z (-1)) with (-1)%Q. ring. }
    destruct (Py.gt _ 180) eqn:E.
    + etransitivity; [apply Qplus_comp; [exact HF|reflexivity]|]. ring.
    + apply Py_gt_false in E. lra.
  - assert (HF : (Py.fmod (lon + longitude_shift) 360 == r)%Q).
    { apply (Py_fmod_unique _ _ _ k); [lra..|]. exact Hsum. }
    destruct (Py.gt _ 180) eqn:E.
    + apply Py_gt_spec in E. lra.
    + exact HF.
Qed.



(** ** The shading pass: glyphs, columns, repetition *)

Lemma ramp_glyph_in_ramp (i : Z) :
  0 <= i < Z.of_nat (length ASCII_SHADES) → ramp_glyph i ∈ ASCII_SHADES.
Proof.
  intros Hi. unfold ramp_glyph.
  destruct (ASCII_SHADES !! Z.to_nat i) as [c|] eqn:E.
  - simpl. by eapply list_elem_of_lookup_2.
  - apply lookup_ge_None in E. lia.
Qed.

Lemma shade_cell_in_ramp (hour : Z) (shift : Q) (width : Z) (x : nat) (c : ascii) :
  shade_cell hour shift width x c ∈ ASCII_SHADES.
Proof.
  unfold shade_cell. destruct (Ascii.eqb c " ").
  - by apply (bool_decide_unpack _).
  - apply ramp_glyph_in_ramp, column_shade_range.
Qed.

(** Shading what is already shaded changes nothing. *)
Lemma shade_cell_idem (hour : Z) (shift : Q) (width : Z) (x : nat) (c : ascii) :
  shade_cell hour shift width x (shade_cell hour shift width x c)
  = shade_cell hour shift width x c.
Proof.
  unfold shade_cell. destruct (Ascii.eqb c " ") eqn:E; [done|].
  destruct (Ascii.eqb_spec (ramp_glyph (column_shade hour shift width (Z.of_nat x))) " ")
    as [Hb|Hb]; [by rewrite Hb|done].
Qed.

Lemma shade_row_length (hour : Z) (shift : Q) (width : Z) (r : list ascii) :
  length (shade_row hour shift width r) = length r.
Proof. apply map_upto_length. Qed.

Lemma shade_grid_idem (hour : Z) (shift : Q) (width : Z) (a : ndarray) :
  shade_grid hour shift width (shade_grid hour shift width a)
  = shade_grid hour shift width a.
Proof.
  unfold shade_grid. rewrite <- list_fmap_compose.
  apply list_fmap_ext. intros _ r _. simpl.
  apply list_eq. intros j. unfold shade_row. rewrite !map_upto_lookup.
  destruct (r !! j) as [c|]; [|done]. simpl.
  case_decide; [|done]. by rewrite shade_cell_idem.
Qed.


(** X5.  The shading pass writes only glyphs of the ramp: whatever the
    cells held before, every cell in the first [width] columns holds a
    character of [ASCII_SHADES] afterwards (the index is clamped, so the
    ramp is never indexed out of range). *)
Theorem shading_writes_ramp_glyphs (hour : Z) (globe : loc) (longitude_shift : Q)
    (width : Z) (a : ndarray) (st : state) :
  heap st !! globe = Some a →
  Forall (fun r => (Z.to_nat width ≤ length r)%nat) a →
  ∃ st' a',
    apply_day_night_shading hour globe longitude_shift width st = (Ok globe, st')
    ∧ heap st' !! globe = Some a'
    ∧ ∀ y x c, (x < Z.to_nat width)%nat → cell a' y x = Some c → c ∈ ASCII_SHADES.
Proof.
  intros Hl Hshape.
  destruct (shading_cells hour globe longitude_shift width a st Hl Hshape)
    as (st' & Hrun & Hst').
  exists st', (shade_grid hour longitude_shift width a).
  split; [done|]. split; [done|].
  intros y x c Hx. rewrite cell_shade_grid.
  destruct (cell a y x) as [c0|]; [|done]. simpl.
  case_decide; [|lia]. intros [= <-]. apply shade_cell_in_ramp.
Qed.

Lemma shading_writes_ramp_glyphs_witness :
  ∃ st' a',
    apply_day_night_shading 9 0%nat 21 2 (State {[ 0%nat := [["x"; "~"]; ["?"; " "]]%char ]} ∅)
    = (Ok 0%nat, st')
    ∧ heap st' !! 0%nat = Some a'
    ∧ ∀ y x c, (x < Z.to_nat 2)%nat → cell a' y x = Some c → c ∈ ASCII_SHADES.
Proof.
  apply (shading_writes_ramp_glyphs 9 0%nat 21 2 [["x"; "~"]; ["?"; " "]]%char).
  - reflexivity.
  - apply (bool_decide_unpack _). by vm_compute.
Defined.

(** X6.  Shading is by column: after the pass, any two cells of one
    shaded column that were not blank hold the same glyph, whatever their
    rows and whatever they held. *)
Theorem shading_uniform_in_column (hour : Z) (globe : loc) (longitude_shift : Q)
    (width : Z) (a : ndarray) (st : state) (y1 y2 x : nat) (c1 c2 : ascii) :
  heap st !! globe = Some a →
  Forall (fun r => (Z.to_nat width ≤ length r)%nat) a →
  (x < Z.to_nat width)%nat →
  cell a y1 x = Some c1 → c1 ≠ " "%char →
  cell a y2 x = Some c2 → c2 ≠ " "%char →
  ∃ st' a',
    apply_day_night_shading hour globe longitude_shift width st = (Ok globe, st')
    ∧ heap st' !! globe = Some a'
    ∧ cell a' y1 x = cell a' y2 x.
Proof.
  intros Hl Hshape Hx Hc1 Hn1 Hc2 Hn2.
  destruct (shading_cells hour globe longitude_shift width a st Hl Hshape)
    as (st' & Hrun & Hst').
  exists st', (shade_grid hour longitude_shift width a).
  split; [done|]. split; [done|].
  rewrite !cell_shade_grid, Hc1, Hc2. simpl. case_decide; [|lia].
  unfold shade_cell.
  destruct (Ascii.eqb_spec c1 " "); [done|]. by destruct (Ascii.eqb_spec c2 " ").
Qed.

Lemma shading_uniform_in_column_witness :
  ∃ st' a',
    apply_day_night_shading 9 0%nat 21 2 (State {[ 0%nat := [["x"; "~"]; ["?"; " "]]%char ]} ∅)
    = (Ok 0%nat, st')
    ∧ heap st' !! 0%nat = Some a'
    ∧ cell a' 0 0 = cell a' 1 0.
Proof.
  apply (shading_uniform_in_column 9 0%nat 21 2 [["x"; "~"]; ["?"; " "]]%char
           _ 0 1 0 "x" "?").
  - reflexivity.
  - apply (bool_decide_unpack _). by vm_compute.
  - vm_compute. lia.
  - reflexivity.
  - discriminate.
  - reflexivity.
  - discriminate.
Defined.



(** X8.  Shading twice is shading once: a second pass with the same
    clock hour, rotation offset and width leaves the array as the first
    pass left it. *)
Theorem shading_idempotent (hour : Z) (globe : loc) (longitude_shift : Q)
    (width : Z) (a : ndarray) (st : state) :
  heap st !! globe = Some a →
  Forall (fun r => (Z.to_nat width ≤ length r)%nat) a →
  ∃ st1 st2,
    apply_day_night_shading hour globe longitude_shift width st = (Ok globe, st1)
    ∧ apply_day_night_shading hour globe longitude_shift width st1 = (Ok globe, st2)
    ∧ st2 = st1.
Proof.
  intros Hl Hshape.
  pose proof (apply_day_night_shading_spec hour globe longitude_shift width a st
                Hl Hshape) as Hrun1.
  eexists _, _. split; [exact Hrun1|].
  rewrite (apply_day_night_shading_spec hour globe longitude_shift width
             (shade_grid hour longitude_shift width a)).
  - split; [done|]. simpl. by rewrite insert_insert_eq, shade_grid_idem.
  - simpl. apply lookup_insert_eq.
  - unfold shade_grid. apply Forall_fmap.
    eapply Forall_impl; [exact Hshape|]. simpl. intros r Hr.
    by rewrite shade_row_length.
Qed.

Lemma shading_idempotent_witness :
  ∃ st1 st2,
    apply_day_night_shading 5 0%nat 42 20 example_state = (Ok 0%nat, st1)
    ∧ apply_day_night_shading 5 0%nat 42 20 st1 = (Ok 0%nat, st2)
    ∧ st2 = st1.
Proof.
  apply (shading_idempotent 5 0%nat 42 20 example_globe example_state).
  - reflexivity.
  - unfold example_globe. apply Forall_replicate. vm_compute. lia.
Defined.

(** X9.  The pass keeps the shape of the array and touches the first
    [width] columns only: the array has as many rows as before, every row
    its old length, and the cells further right hold what they held. *)
Theorem shading_keeps_shape (hour : Z) (globe : loc) (longitude_shift : Q)
    (width : Z) (a : ndarray) (st : state) :
  heap st !! globe = Some a →
  Forall (fun r => (Z.to_nat width ≤ length r)%nat) a →
  ∃ st' a',
    apply_day_night_shading hour globe longitude_shift width st = (Ok globe, st')
    ∧ heap st' !! globe = Some a'
    ∧ length <$> a' = length <$> a
    ∧ ∀ y x, (Z.to_nat width ≤ x)%nat → cell a' y x = cell a y x.
Proof.
  intros Hl Hshape.
  destruct (shading_cells hour globe longitude_shift width a st Hl Hshape)
    as (st' & Hrun & Hst').
  exists st', (shade_grid hour longitude_shift width a).
  split; [done|]. split; [done|]. split.
  - unfold shade_grid. rewrite <- list_fmap_compose.
    apply list_fmap_ext. intros _ r _. simpl. apply shade_row_length.
  - intros y x Hx. rewrite cell_shade_grid.
    destruct (cell a y x); [|done]. simpl. case_decide; [lia|done].
Qed.

Lemma shading_keeps_shape_witness :
  ∃ st' a',
    apply_day_night_shading 9 0%nat 21 1 (State {[ 0%nat := [["x"; "~"]; ["?"; " "]]%char ]} ∅)
    = (Ok 0%nat, st')
    ∧ heap st' !! 0%nat = Some a'
    ∧ length <$> a' = length <$> [["x"; "~"]; ["?"; " "]]%char
    ∧ ∀ y x, (Z.to_nat 1 ≤ x)%nat
             → cell a' y x = cell [["x"; "~"]; ["?"; " "]]%char y x.
Proof.
  apply (shading_keeps_shape 9 0%nat 21 1 [["x"; "~"]; ["?"; " "]]%char).
  - reflexivity.
  - apply (bool_decide_unpack _). by vm_compute.
Defined.

(** ** The shading pass on an array that is too narrow *)

Lemma M_bind_Raise {A B : Type} (m : M A) (f : A → M B) (st st' : state) (e : exn) :
  m st = (Raise e, st') → (m ≫= f) st = (Raise e, st').
Proof. intros H. unfold mbind, M_bind. by rewrite H. Qed.

(** A loop stops at the first iteration that raises. *)
Lemma for_raise {A : Type} (xs ys : list A) (x : A) (body : A → M unit)
    (st s1 s2 : state) (e : exn) :
  for_ xs body st = (Ok tt, s1) → body x s1 = (Raise e, s2) →
  for_ (xs ++ x :: ys) body st = (Raise e, s2).
Proof.
  intros Hxs Hx. rewrite for_app. rewrite (M_bind_Ok _ _ _ _ _ Hxs).
  simpl. by apply M_bind_Raise.
Qed.

Lemma Py_range_split (w : Z) (n : nat) :
  (n < Z.to_nat w)%nat →
  ∃ rest, Py.range w = Py.range (Z.of_nat n) ++ Z.of_nat n :: rest.
Proof.
  intros Hn. exists (Z.of_nat <$> seq (S n) (Z.to_nat w - S n)).
  unfold Py.range. rewrite Nat2Z.id.
  replace (Z.to_nat w) with (n + S (Z.to_nat w - S n))%nat at 1 by lia.
  by rewrite seq_app, fmap_app.
Qed.

Lemma Py_index_length (n : nat) : Py.index n (Z.of_nat n) = Raise IndexError.
Proof.
  unfold Py.index.
  destruct (Z.ltb_spec (Z.of_nat n) (Z.of_nat n)); [lia|].
  destruct (Z.ltb_spec (Z.of_nat n) 0); [lia|].
  by rewrite !andb_false_r.
Qed.

Lemma getitem_past_row_end (l : loc) (a : ndarray) (i n : nat) (r : list ascii)
    (st : state) :
  heap st !! l = Some a → a !! i = Some r → n = length r →
  Np.getitem l (Z.of_nat i) (Z.of_nat n) st = (Raise IndexError, st).
Proof.
  intros Hl Hi ->. unfold Np.getitem.
  rewrite (M_bind_Ok _ _ st st a); [|unfold Np.deref; by rewrite Hl].
  rewrite (M_bind_Ok _ _ st st i).
  2:{ unfold lift. by rewrite Py_index_nat by (by eapply lookup_lt_Some). }
  rewrite Hi. apply M_bind_Raise. unfold lift. by rewrite Py_index_length.
Qed.

(** The inner loop of the shading pass, run over the first [n] columns
    of row [i]. *)
Lemma shade_columns_upto (hour : Z) (globe : loc) (shift : Q) (width : Z)
    (i n : nat) (a : ndarray) (r : list ascii) (st : state) :
  heap st !! globe = Some a → a !! i = Some r → (n ≤ length r)%nat →
  for_ (Py.range (Z.of_nat n)) (fun x =>
    c ← Np.getitem globe (Z.of_nat i) x;
    v ← (if negb (Ascii.eqb c " ")
         then lift (str_getitem ASCII_SHADES (column_shade hour shift width x))
         else mret " "%char);
    Np.setitem globe (Z.of_nat i) x v) st
  = (Ok tt, State (<[globe := <[i := map_upto n (shade_cell hour shift width) r]> a]>
                     (heap st))
                  (LAND_CACHE st)).
Proof.
  intros Hl Hi Hn.
  set (f := shade_cell hour shift width).
  pose (I := fun (k : nat) (s : state) =>
    s = State (<[globe := <[i := map_upto k f r]> a]> (heap st)) (LAND_CACHE st)).
  edestruct (for_inv I (Py.range (Z.of_nat n))) as (st' & Hrun & Hend); last first.
  - rewrite Hrun. f_equal. rewrite Hend, Py_range_length, Nat2Z.id. done.
  - intros k x s Hk ->. apply Py_range_lookup in Hk as [-> Hk].
    rewrite Nat2Z.id in Hk.
    destruct (lookup_lt_is_Some_2 r k) as [c Hc]; [lia|].
    exists (State (<[globe := <[i := map_upto (S k) f r]> a]> (heap st)) (LAND_CACHE st)).
    split; [|done].
    set (rk := map_upto k f r). set (ak := <[i := rk]> a).
    set (s := State (<[globe := ak]> (heap st)) (LAND_CACHE st)).
    assert (Hi' : (i < length a)%nat) by (by eapply lookup_lt_Some).
    assert (Hs : heap s !! globe = Some ak) by apply lookup_insert_eq.
    assert (Hak : ak !! i = Some rk) by (by apply list_lookup_insert_eq).
    assert (Hrk : rk !! k = Some c).
    { unfold rk. rewrite map_upto_lookup, Hc. case_updated. }
    rewrite (M_bind_Ok _ _ s s c) by (by eapply getitem_ok).
    rewrite (M_bind_Ok _ _ s s (f k c)).
    2:{ unfold f, shade_cell. destruct (Ascii.eqb c " "); simpl; [done|].
        unfold lift. by rewrite str_getitem_ramp by apply column_shade_range. }
    rewrite (setitem_ok globe ak i k rk (f k c) s Hs Hak).
    2:{ unfold rk. rewrite map_upto_length. lia. }
    unfold s, ak, rk. simpl. f_equal.
    rewrite insert_insert_eq. f_equal.
    rewrite list_insert_insert_eq. by rewrite (map_upto_S k f r c Hc).
  - unfold I. rewrite map_upto_0, (list_insert_id a i r Hi).
    rewrite (insert_id (heap st) globe a Hl). apply state_eta.
Qed.

(** X10.  A [width] beyond the columns of the array is an error: if the
    array has a first row and that row is shorter than [width], the pass
    raises [IndexError] (after shading that row), and nothing but the
    array it was given has changed. *)
Theorem shading_too_wide (hour : Z) (globe : loc) (longitude_shift : Q)
    (width : Z) (a : ndarray) (r : list ascii) (st : state) :
  heap st !! globe = Some a → a !! 0%nat = Some r →
  (length r < Z.to_nat width)%nat →
  ∃ st',
    apply_day_night_shading hour globe longitude_shift width st
    = (Raise IndexError, st')
    ∧ mutates_only globe st st'.
Proof.
  intros Hl Hr Hw.
  assert (Hgoal : ∃ st', apply_day_night_shading hour globe longitude_shift width st
                         = (Raise IndexError, st')).
  { unfold apply_day_night_shading.
    erewrite M_bind_Ok; [|unfold Np.len; erewrite M_bind_Ok;
                           [reflexivity|unfold Np.deref; by rewrite Hl]].
    destruct (Py_range_split (Z.of_nat (length a)) 0) as [rows Hrows].
    { apply lookup_lt_Some in Hr. lia. }
    destruct (Py_range_split width (length r) Hw) as [cols Hcols].
    rewrite Hrows, Hcols. simpl.
    eexists. apply M_bind_Raise, M_bind_Raise.
    eapply for_raise.
    - apply (shade_columns_upto hour globe longitude_shift width 0 (length r) a r);
        [exact Hl|exact Hr|done].
    - apply M_bind_Raise.
      apply (getitem_past_row_end globe
               (<[0%nat := map_upto (length r) (shade_cell hour longitude_shift width) r]> a)
               0 (length r)
               (map_upto (length r) (shade_cell hour longitude_shift width) r)).
      + apply lookup_insert_eq.
      + apply list_lookup_insert_eq. by eapply lookup_lt_Some.
      + by rewrite map_upto_length. }
  destruct Hgoal as [st' Hrun]. exists st'. split; [exact Hrun|].
  by eapply shading_mutates_only.
Qed.

Lemma shading_too_wide_witness :
  ∃ st',
    apply_day_night_shading 0 0%nat 0 21 example_state = (Raise IndexError, st')
    ∧ mutates_only 0%nat example_state st'.
Proof.
  apply (shading_too_wide 0 0%nat 0 21 example_globe (replicate 20 "#"%char)
           example_state).
  - reflexivity.
  - reflexivity.
  - vm_compute. lia.
Defined.

(** ** The rasterizer: rejected dimensions, cache growth, empty land *)

Section RasterizerMore.
Context {Shape : Type}.
Variable contains : Shape → Q → Q → bool.
Variable land_shapes : list Shape.

Local Abbreviation rasterize := (rasterize contains land_shapes).
Local Abbreviation generate_globe := (generate_globe contains land_shapes).

Lemma generate_globe_negative shift w h st :
  LAND_CACHE st !! (w, h) = None → w < 0 ∨ h < 0 →
  generate_globe shift w h st = (Raise ValueError, st).
Proof.
  intros Hmiss Hneg. unfold generate_globe.
  rewrite (M_bind_Ok _ _ st st None) by (unfold cache_lookup; by rewrite Hmiss).
  apply M_bind_Raise. by apply populate_negative.
Qed.

(** X11.  Dimensions that are not cached and of which one is negative are
    rejected with [ValueError] (as [np.full] does), and the call leaves the
    cache and every array as they were. *)
Theorem generate_globe_rejects_negative (longitude_shift : Q) (width height : Z)
    (st : state) :
  LAND_CACHE st !! (width, height) = None → width < 0 ∨ height < 0 →
  generate_globe longitude_shift width height st = (Raise ValueError, st).
Proof. apply generate_globe_negative. Qed.

(** All that one call may do to a well-formed state. *)
Lemma generate_globe_outcomes shift w h st :
  cache_ok st →
  (∃ land_cache grid,
     LAND_CACHE st !! (w, h) = Some land_cache
     ∧ heap st !! land_cache = Some grid
     ∧ generate_globe shift w h st
       = (Ok (fresh (dom (heap st))),
          State (<[fresh (dom (heap st)) := grid]> (heap st)) (LAND_CACHE st)))
  ∨ (LAND_CACHE st !! (w, h) = None ∧ 0 <= w ∧ 0 <= h
     ∧ generate_globe shift w h st
       = (Ok (fresh (dom (<[fresh (dom (heap st)) := rasterize shift w h]> (heap st)))),
          State (<[fresh (dom (<[fresh (dom (heap st)) := rasterize shift w h]> (heap st)))
                   := rasterize shift w h]>
                   (<[fresh (dom (heap st)) := rasterize shift w h]> (heap st)))
                (<[(w, h) := fresh (dom (heap st))]> (LAND_CACHE st))))
  ∨ (LAND_CACHE st !! (w, h) = None ∧ (w < 0 ∨ h < 0)
     ∧ generate_globe shift w h st = (Raise ValueError, st)).
Proof.
  intros Hok. destruct (LAND_CACHE st !! (w, h)) as [lc|] eqn:Hkey.
  - left. destruct (Hok _ _ Hkey) as (grid & Hgrid & _).
    exists lc, grid. split; [done|]. split; [done|]. by eapply generate_globe_hit.
  - destruct (Z.lt_ge_cases w 0) as [Hw|Hw]; [|destruct (Z.lt_ge_cases h 0) as [Hh|Hh]].
    + right. right. split; [done|]. split; [by left|].
      apply generate_globe_negative; [done|by left].
    + right. right. split; [done|]. split; [by right|].
      apply generate_globe_negative; [done|by right].
    + right. left. split; [done|]. split; [lia|]. split; [lia|].
      by apply generate_globe_miss.
Qed.

(** X12.  The cache only grows: however a call ends, every entry that was
    in the cache is still there, refers to the same array, and that array
    holds what it held; the only key whose entry may change is the key of
    the call. *)
Theorem generate_globe_keeps_entries (longitude_shift : Q) (width height : Z)
    (st : state) (r : result loc) (st' : state) :
  cache_ok st →
  generate_globe longitude_shift width height st = (r, st') →
  (∀ key l, LAND_CACHE st !! key = Some l →
     LAND_CACHE st' !! key = Some l ∧ heap st' !! l = heap st !! l)
  ∧ (∀ key, key ≠ (width, height) → LAND_CACHE st' !! key = LAND_CACHE st !! key).
Proof.
  intros Hok Hrun.
  assert (Hold : ∀ key l g, LAND_CACHE st !! key = Some l →
            <[fresh (dom (heap st)) := g]> (heap st) !! l = heap st !! l).
  { intros key l g Hl. destruct (Hok _ _ Hl) as (a & Ha & _).
    rewrite lookup_insert_ne; [done|]. intros E. rewrite <- E in Ha.
    by rewrite fresh_heap in Ha. }
  destruct (generate_globe_outcomes longitude_shift width height st Hok)
    as [(lc & grid & Hkey & Hgrid & Heq)|[(Hmiss & Hw & Hh & Heq)|(Hmiss & _ & Heq)]];
    rewrite Heq in Hrun; injection Hrun as <- <-; simpl.
  - split; [|done]. intros key l Hl. split; [done|]. by eapply Hold.
  - split.
    + intros key l Hl. split.
      * rewrite lookup_insert_ne; [done|]. intros E. congruence.
      * destruct (Hok _ _ Hl) as (a & Ha & _).
        rewrite lookup_insert_ne.
        -- by eapply Hold.
        -- intros E. pose proof (fresh_heap
             (<[fresh (dom (heap st)) := rasterize longitude_shift width height]> (heap st)))
             as Hf. rewrite E in Hf. erewrite Hold in Hf by done. congruence.
    + intros key Hne. by rewrite lookup_insert_ne.
  - done.
Qed.

(** X13.  No land, no marker: when no sample point lies in land (as with an
    empty set of shapes), a populating call returns the all-blank grid of
    the requested shape. *)
Theorem generate_globe_without_land (longitude_shift : Q) (width height : Z)
    (st : state) :
  LAND_CACHE st !! (width, height) = None → 0 <= width → 0 <= height →
  (∀ lat lon, (lat, lon) ∈ samples width height →
     is_land contains land_shapes lon lat = false) →
  ∃ l st',
    generate_globe longitude_shift width height st = (Ok l, st')
    ∧ heap st' !! l
      = Some (replicate (Z.to_nat height) (replicate (Z.to_nat width) " "%char)).
Proof.
  intros Hmiss Hw Hh Hocean. eexists _, _.
  split; [by apply generate_globe_miss|]. simpl. rewrite lookup_insert_eq. f_equal.
  rewrite <- (land_grid_nil contains land_shapes longitude_shift).
  unfold rasterize, land_grid, land_row.
  apply list_fmap_ext. intros _ row _. apply list_fmap_ext. intros _ col _.
  unfold land_cell. simpl.
  destruct (existsb _ _) eqn:E; [|done].
  apply existsb_exists in E as ([lat lon] & Hin & Hp).
  apply list_elem_of_In in Hin. unfold paints in Hp. simpl in Hp.
  by rewrite (Hocean lat lon Hin) in Hp.
Qed.

End RasterizerMore.

Lemma generate_globe_rejects_negative_witness :
  generate_globe box_contains example_land 0 20 (-1) initial_state
  = (Raise ValueError, initial_state).
Proof.
  apply (generate_globe_rejects_negative box_contains example_land 0 20 (-1)
           initial_state); [reflexivity|lia].
Defined.

Lemma generate_globe_keeps_entries_witness :
  ∃ l1 st1 r st2,
    generate_globe box_contains example_land 0 20 10 initial_state = (Ok l1, st1)
    ∧ generate_globe box_contains example_land 3 30 10 st1 = (r, st2)
    ∧ (∀ key l, LAND_CACHE st1 !! key = Some l →
         LAND_CACHE st2 !! key = Some l ∧ heap st2 !! l = heap st1 !! l)
    ∧ (∀ key, key ≠ (30, 10) → LAND_CACHE st2 !! key = LAND_CACHE st1 !! key).
Proof.
  destruct (generate_globe_run box_contains example_land 0 20 10 initial_state
              cache_ok_initial)
    as (l1 & st1 & lc & grid & Hrun1 & _ & _ & _ & _ & _ & Hok1 & _); [lia..|].
  destruct (generate_globe box_contains example_land 3 30 10 st1) as [r st2] eqn:Hrun2.
  exists l1, st1, r, st2. split; [exact Hrun1|]. split; [exact Hrun2|].
  exact (generate_globe_keeps_entries box_contains example_land 3 30 10 st1 r st2
           Hok1 Hrun2).
Defined.

Lemma generate_globe_without_land_witness :
  ∃ l st',
    generate_globe box_contains [] 3 20 10 initial_state = (Ok l, st')
    ∧ heap st' !! l
      = Some (replicate (Z.to_nat 10) (replicate (Z.to_nat 20) " "%char)).
Proof.
  apply (generate_globe_without_land box_contains [] 3 20 10 initial_state);
    [reflexivity|lia|lia|reflexivity].
Defined.

(** ** The oversampling lattice reaches every cell *)

Lemma Py_int_oversample (q : Q) (c w : Z) :
  0 <= c < w → (q * inject_Z (w * 2 - 1) == inject_Z (2 * c * w))%Q →
  Py.int q = c.
Proof.
  intros Hc Hq.
  assert (Hd : (0 < inject_Z (w * 2 - 1))%Q).
  { change 0%Q with (inject_Z 0). rewrite <- Zlt_Qlt. lia. }
  assert (H1 : (inject_Z c * inject_Z (w * 2 - 1) <= q * inject_Z (w * 2 - 1))%Q).
  { rewrite Hq, <- inject_Z_mult, <- Zle_Qle. nia. }
  assert (H2 : (q * inject_Z (w * 2 - 1) < inject_Z (c + 1) * inject_Z (w * 2 - 1))%Q).
  { rewrite Hq, <- inject_Z_mult, <- Zlt_Qlt. nia. }
  apply Qmult_le_r in H1; [|done]. apply Qmult_lt_r in H2; [|done].
  assert (H0 : (0 <= inject_Z c)%Q).
  { change 0%Q with (inject_Z 0). rewrite <- Zle_Qle. lia. }
  rewrite Py_int_floor by lra. by apply Qfloor_unique.
Qed.

(** The lattice point with the given indices is among the samples. *)
Lemma sample_in_lattice (w h i j : Z) :
  0 <= i < h * 2 → 0 <= j < w * 2 →
  ((-90 + inject_Z i * ((90 - -90) / inject_Z (h * 2 - 1)))%Q,
   (-180 + inject_Z j * ((180 - -180) / inject_Z (w * 2 - 1)))%Q)
  ∈ samples w h.
Proof.
  intros Hi Hj. unfold samples. apply list_elem_of_bind.
  assert (Hrange : ∀ n k, 0 <= k < n → k ∈ Py.range n).
  { intros n k Hk. apply list_elem_of_lookup. exists (Z.to_nat k).
    apply Py_range_lookup. lia. }
  eexists. split.
  - apply list_elem_of_fmap. eexists. split; [reflexivity|].
    unfold Np.linspace_samples. apply list_elem_of_fmap.
    exists j. split; [reflexivity|]. by apply Hrange.
  - unfold Np.linspace_samples. apply list_elem_of_fmap.
    exists i. split; [reflexivity|]. by apply Hrange.
Qed.

(** At rotation 0 the lattice point with the indices [2h - 1 - 2 row] and
    [2 col] is mapped to the cell ([row], [col]). *)
Lemma lattice_point_cell (w h row col : Z) :
  0 <= row < h → 0 <= col < w →
  lat_lon_to_screen
    (-90 + inject_Z (h * 2 - 1 - 2 * row) * ((90 - -90) / inject_Z (h * 2 - 1)))
    (-180 + inject_Z (2 * col) * ((180 - -180) / inject_Z (w * 2 - 1)))
    w h 0
  = Ok (col, row).
Proof.
  intros Hrow Hcol. unfold lat_lon_to_screen, Py.mod_. cbv zeta.
  destruct (Z.eqb_spec w 0); [lia|]. simpl.
  assert (Hdw : (0 < inject_Z (w * 2 - 1))%Q).
  { change 0%Q with (inject_Z 0). rewrite <- Zlt_Qlt. lia. }
  assert (Hdh : (0 < inject_Z (h * 2 - 1))%Q).
  { change 0%Q with (inject_Z 0). rewrite <- Zlt_Qlt. lia. }
  assert (Hdw' : ¬ (inject_Z (w * 2 - 1) == 0)%Q) by lra.
  assert (Hdh' : ¬ (inject_Z (h * 2 - 1) == 0)%Q) by lra.
  set (lon := (-180 + inject_Z (2 * col) * ((180 - -180) / inject_Z (w * 2 - 1)))%Q).
  assert (Hx : Py.int (((lon_shifted lon 0 + 180) / 360) * inject_Z w) mod w = col).
  { destruct (Z.eq_dec col 0) as [->|Hne].
    - assert (Hls : (lon_shifted lon 0 == 180)%Q).
      { apply (lon_shifted_unique _ _ _ (-1)); [lra..|].
        unfold lon. change (inject_Z (2 * 0)) with 0%Q.
        change (inject_Z (-1)) with (-1)%Q. field. exact Hdw'. }
      rewrite (Py_int_inject _ w); [by rewrite Z.mod_same|].
      rewrite Hls. field.
    - assert (Hj0 : (0 < inject_Z (2 * col))%Q).
      { change 0%Q with (inject_Z 0). rewrite <- Zlt_Qlt. lia. }
      assert (Hj1 : (inject_Z (2 * col) <= inject_Z (w * 2 - 1))%Q).
      { rewrite <- Zle_Qle. lia. }
      assert (Hu : (0 < (180 - -180) / inject_Z (w * 2 - 1))%Q).
      { apply Qlt_shift_div_l; lra. }
      assert (Hud : (inject_Z (w * 2 - 1) * ((180 - -180) / inject_Z (w * 2 - 1))
                     == 360)%Q) by (field; exact Hdw').
      assert (Hju : (inject_Z (2 * col) * ((180 - -180) / inject_Z (w * 2 - 1))
                     <= inject_Z (w * 2 - 1) * ((180 - -180) / inject_Z (w * 2 - 1)))%Q).
      { apply Qmult_le_compat_r; lra. }
      assert (Hju0 : (0 < inject_Z (2 * col) * ((180 - -180) / inject_Z (w * 2 - 1)))%Q).
      { apply Qmult_lt_0_compat; lra. }
      assert (Hls : (lon_shifted lon 0 == lon)%Q).
      { apply (lon_shifted_unique _ _ _ 0); unfold lon; [lra|lra|].
        change (inject_Z 0) with 0%Q. ring. }
      rewrite (Py_int_oversample _ col w); [apply Z.mod_small; lia|lia|].
      rewrite Hls. unfold lon.
      replace (2 * col * w) with (2 * col * w)%Z by done.
      rewrite (inject_Z_mult (2 * col) w). field. exact Hdw'. }
  rewrite Hx. do 2 f_equal.
  rewrite (Py_int_oversample _ row h); [lia|lia|].
  assert (HI : (inject_Z (h * 2 - 1 - 2 * row)
                == inject_Z (h * 2 - 1) - inject_Z (2 * row))%Q).
  { unfold Z.sub. rewrite inject_Z_plus, inject_Z_opp. ring. }
  rewrite HI, (inject_Z_mult (2 * row) h). field. exact Hdh'.
Qed.

Section RasterizerCoverage.
Context {Shape : Type}.
Variable contains : Shape → Q → Q → bool.
Variable land_shapes : list Shape.

(** X14.  At rotation 0 the doubled sampling leaves no cell out: every
    cell of the grid is the image of a sample point, so a land region that
    holds every sample point makes a populating call return the grid that
    is land everywhere. *)
Theorem generate_globe_all_land (width height : Z) (st : state) :
  LAND_CACHE st !! (width, height) = None → 0 < width → 0 < height →
  (∀ lat lon, (lat, lon) ∈ samples width height →
     is_land contains land_shapes lon lat = true) →
  ∃ l st',
    generate_globe contains land_shapes 0 width height st = (Ok l, st')
    ∧ heap st' !! l
      = Some (replicate (Z.to_nat height) (replicate (Z.to_nat width) "#"%char)).
Proof.
  intros Hmiss Hw Hh Hland. eexists _, _.
  split; [apply generate_globe_miss; [done|lia|lia]|].
  simpl. rewrite lookup_insert_eq. f_equal.
  rewrite <- (fmap_seq_const (replicate (Z.to_nat width) "#"%char)).
  rewrite <- (fmap_seq_const "#"%char).
  unfold rasterize, land_grid, land_row.
  apply list_fmap_ext. intros i row Hrow. apply list_fmap_ext. intros j col Hcol.
  apply lookup_seq in Hrow as [-> Hrow], Hcol as [-> Hcol]. simpl in *.
  unfold land_cell.
  assert (E : existsb (paints contains land_shapes 0 width height i j)
                (samples width height) = true); [|by rewrite E].
  apply existsb_exists. eexists. split.
  - apply list_elem_of_In.
    apply (sample_in_lattice width height
             (height * 2 - 1 - 2 * Z.of_nat i) (2 * Z.of_nat j)); lia.
  - unfold paints. cbn [fst snd].
    rewrite Hland by (apply sample_in_lattice; lia).
    rewrite lattice_point_cell by lia. by rewrite !Z.eqb_refl.
Qed.

End RasterizerCoverage.

Lemma generate_globe_all_land_witness :
  ∃ l st',
    generate_globe box_contains [Box (-200) 200 (-100) 100] 0 20 10 initial_state
    = (Ok l, st')
    ∧ heap st' !! l
      = Some (replicate (Z.to_nat 10) (replicate (Z.to_nat 20) "#"%char)).
Proof.
  apply (generate_globe_all_land box_contains [Box (-200) 200 (-100) 100] 20 10
           initial_state); [reflexivity|lia|lia|].
  intros lat lon Hin.
  assert (Hall : Forall (fun p : Q * Q =>
                           is_land box_contains [Box (-200) 200 (-100) 100] p.2 p.1
                           = true) (samples 20 10)).
  { apply (bool_decide_unpack _). by vm_compute. }
  exact (proj1 (Forall_forall _ _) Hall (lat, lon) Hin).
Defined.

(** ** The refresh when the height of the frame has changed *)

Lemma redraw_changed_raises (prev : frame) (k : nat) (cur : frame) (width : Z) :
  (k ≤ length prev)%nat → (length prev < k + length cur)%nat →
  ∃ calls, redraw_changed prev (Z.of_nat k) cur width = (calls, Raise IndexError).
Proof.
  revert k. induction cur as [|row rest IH]; intros k Hk Hlen; [simpl in Hlen; lia|].
  simpl. destruct (decide (k = length prev)) as [->|Hne].
  - rewrite Py_index_length. by eexists.
  - rewrite Py_index_nat by lia.
    replace (Z.of_nat k + 1) with (Z.of_nat (S k)) by lia.
    destruct (IH (S k)) as (calls & ->); [lia|simpl in Hlen; lia|].
    by eexists.
Qed.

Lemma redraw_completes (prev : option frame) (cur : frame) (width : Z) :
  (∀ p, prev = Some p → (length cur ≤ length p)%nat) →
  ∃ calls, redraw prev cur width = (calls, Ok tt).
Proof.
  intros Hfit. destruct prev as [[|row p]|]; [by eexists| |by eexists].
  destruct (redraw_changed_spec (row :: p) 0 cur width 0) as (calls & Hrun & _).
  - specialize (Hfit _ eq_refl). lia.
  - exists calls. exact Hrun.
Qed.

(** X15.  The refresh compares the rows of the current frame with the rows
    of the previous one at the same indices: it completes when the
    previous frame is at least as high as the current one, and raises
    [IndexError] when the previous frame is not empty and lower. *)
Theorem redraw_outcome (prev cur : frame) (width : Z) :
  prev ≠ [] →
  ((length cur ≤ length prev)%nat →
   ∃ calls, redraw (Some prev) cur width = (calls, Ok tt))
  ∧ ((length prev < length cur)%nat →
     ∃ calls, redraw (Some prev) cur width = (calls, Raise IndexError)).
Proof.
  intros Hprev. split.
  - intros Hlen. apply redraw_completes. by intros p [= <-].
  - intros Hlen. destruct prev as [|row p]; [done|].
    apply (redraw_changed_raises (row :: p) 0 cur width); lia.
Qed.

Lemma redraw_outcome_witness :
  (∃ calls, redraw (Some [["#"; " "]; [" "; "#"]]%char) [[" "; "#"]]%char 2
            = (calls, Ok tt))
  ∧ (∃ calls, redraw (Some [["#"; " "]]%char) [["#"; " "]; [" "; "#"]]%char 2
              = (calls, Raise IndexError)).
Proof.
  split.
  - apply (redraw_outcome [["#"; " "]; [" "; "#"]]%char [[" "; "#"]]%char 2);
      [discriminate|simpl; lia].
  - apply (redraw_outcome [["#"; " "]]%char [["#"; " "]; [" "; "#"]]%char 2);
      [discriminate|simpl; lia].
Defined.

(** ** The rendering loop *)

Section RenderGlobeFacts.
Context {Shape : Type}.
Variable contains : Shape → Q → Q → bool.
Variable land_shapes : list Shape.

Local Abbreviation rasterize := (rasterize contains land_shapes).
Local Abbreviation generate_globe := (generate_globe contains land_shapes).
Local Abbreviation render_frame := (render_frame contains land_shapes).
Local Abbreviation render_loop := (render_loop contains land_shapes).
Local Abbreviation render_globe := (render_globe contains land_shapes).

(** Which grid a call returns, and which keys the cache holds after it. *)
Lemma generate_globe_grid shift w h st :
  cache_ok st → 0 <= w → 0 <= h →
  ∃ l st1 grid,
    generate_globe shift w h st = (Ok l, st1)
    ∧ heap st1 !! l = Some grid
    ∧ cached_grid st1 (w, h) = Some grid
    ∧ is_land_grid (w, h) grid
    ∧ (∀ key lc, LAND_CACHE st1 !! key = Some lc → lc ≠ l)
    ∧ cache_ok st1
    ∧ (LAND_CACHE st !! (w, h) = None → grid = rasterize shift w h)
    ∧ (∀ grid0, cached_grid st (w, h) = Some grid0 → grid = grid0)
    ∧ (∀ key, is_Some (LAND_CACHE st1 !! key) →
         key = (w, h) ∨ is_Some (LAND_CACHE st !! key)).
Proof.
  intros Hok Hw Hh.
  destruct (generate_globe_run contains land_shapes shift w h st Hok Hw Hh)
    as (l & st1 & lc & grid & Hrun & Hkey & Hlc & Hl & Hland & Hfresh & Hok1 & Hmiss & _).
  exists l, st1, grid. split; [done|]. split; [done|].
  split; [unfold cached_grid; by rewrite Hkey|].
  split; [done|]. split; [done|]. split; [done|]. split; [done|].
  destruct (generate_globe_outcomes contains land_shapes shift w h st Hok)
    as [(lc0 & grid0 & Hkey0 & Hgrid0 & Heq)|[(Hnone & _ & _ & Heq)|(_ & Hneg & _)]];
    [| |lia]; rewrite Heq in Hrun; injection Hrun as <- <-.
  - split.
    + intros g0. unfold cached_grid. rewrite Hkey0. simpl. rewrite Hgrid0.
      intros [= <-]. simpl in Hkey, Hlc. rewrite Hkey0 in Hkey.
      injection Hkey as <-. rewrite lookup_insert_ne in Hlc; [congruence|].
      intros E. rewrite <- E in Hgrid0. by rewrite fresh_heap in Hgrid0.
    + intros key Hs. by right.
  - split.
    + intros g0. unfold cached_grid. by rewrite Hnone.
    + intros key. simpl. rewrite lookup_insert. case_decide; [by left|by right].
Qed.

(** The frame of one pass: the shaded copy of the grid that the cache
    holds for the size of the window after the pass. *)
Lemma render_frame_run (maxyx : Z * Z) (hour s : Z) (st : state) :
  cache_ok st →
  ∃ grid st',
    render_frame maxyx hour s st
    = (Ok (shade_grid hour (inject_Z s) (window_width maxyx) grid), st')
    ∧ cached_grid st' (window_width maxyx, window_height maxyx) = Some grid
    ∧ is_land_grid (window_width maxyx, window_height maxyx) grid
    ∧ cache_ok st'
    ∧ (LAND_CACHE st !! (window_width maxyx, window_height maxyx) = None →
       grid = rasterize (inject_Z s) (window_width maxyx) (window_height maxyx))
    ∧ (∀ grid0,
         cached_grid st (window_width maxyx, window_height maxyx) = Some grid0 →
         grid = grid0)
    ∧ (∀ key, is_Some (LAND_CACHE st' !! key) →
         key = (window_width maxyx, window_height maxyx)
         ∨ is_Some (LAND_CACHE st !! key)).
Proof.
  intros Hok. destruct maxyx as [maxy maxx].
  unfold render_frame, window_width, window_height. cbn [fst snd].
  set (w := Z.max 20 (Z.min (maxx - 2) 80)).
  set (h := Z.max 10 (Z.min (maxy - 2) 40)).
  destruct (generate_globe_grid (inject_Z s) w h st Hok)
    as (l & st1 & grid & Hrun & Hl & Hcached & Hland & Hfresh & Hok1
        & Hmiss & Hhit & Hkeys); [lia..|].
  destruct (shading_cells hour l (inject_Z s) w grid st1 Hl) as (st2 & Hshade & Hl2).
  { destruct Hland as [_ Hland]. eapply Forall_impl; [exact Hland|].
    simpl. intros r [-> _]. done. }
  pose proof (shading_mutates_only _ _ _ _ _ _ _ Hshade) as Hmut.
  exists grid, st2. split.
  { rewrite (M_bind_Ok _ _ _ _ _ Hrun), (M_bind_Ok _ _ _ _ _ Hshade).
    unfold Np.deref. by rewrite Hl2. }
  split. { by rewrite (mutates_only_cached_grid l st1 st2 Hfresh Hmut). }
  split; [done|].
  split. { by eapply cache_ok_mutates_only. }
  split; [done|]. split; [done|].
  intros key. destruct Hmut as [-> _]. apply Hkeys.
Qed.

Lemma window_size_bounds (maxyx : Z * Z) :
  20 <= window_width maxyx <= 80 ∧ 10 <= window_height maxyx <= 40.
Proof. unfold window_width, window_height. lia. Qed.

Lemma shaded_frame_length (hour : Z) (shift : Q) (w h : Z) (grid : ndarray) :
  is_land_grid (w, h) grid →
  length (shade_grid hour shift w grid) = Z.to_nat h.
Proof. intros [Hrows _]. by rewrite shade_grid_length. Qed.

(** X16.  The cache stays small: in every run of the loop from a
    well-formed state, however it ends, the keys of the cache stay within
    the clamped window sizes, 20 to 80 columns by 10 to 40 rows, if they
    were within them at the start. *)
Theorem render_loop_cache_keys (ticks : list tick) (longitude_shift : Z)
    (prev : option frame) (screen : list curses_call) (st : state)
    (e : loop_end) (screen' : list curses_call) (st' : state) :
  cache_ok st →
  (∀ w h, is_Some (LAND_CACHE st !! (w, h)) → 20 <= w <= 80 ∧ 10 <= h <= 40) →
  render_loop ticks longitude_shift prev screen st = (e, screen', st') →
  cache_ok st'
  ∧ ∀ w h, is_Some (LAND_CACHE st' !! (w, h)) → 20 <= w <= 80 ∧ 10 <= h <= 40.
Proof.
  revert longitude_shift prev screen st.
  induction ticks as [|t ticks IH]; intros s prev screen st Hok Hbox Hrun.
  - injection Hrun as _ _ <-. done.
  - simpl in Hrun.
    destruct (render_frame_run (tick_maxyx t) (tick_hour t) s st Hok)
      as (grid & st1 & Hframe & _ & _ & Hok1 & _ & _ & Hkeys).
    rewrite Hframe in Hrun.
    assert (Hbox1 : ∀ w h, is_Some (LAND_CACHE st1 !! (w, h)) →
                      20 <= w <= 80 ∧ 10 <= h <= 40).
    { intros w h Hs. destruct (Hkeys _ Hs) as [[= -> ->]|Hs0].
      - apply window_size_bounds.
      - by apply Hbox. }
    destruct (redraw prev _ _) as [calls [[]|err]].
    + destruct (tick_key t =? 113).
      * injection Hrun as _ _ <-. done.
      * by eapply IH.
    + injection Hrun as _ _ <-. done.
Qed.

Lemma heights_never_grow_tail (t : tick) (ticks : list tick) :
  heights_never_grow (t :: ticks) → heights_never_grow ticks.
Proof. intros H i t1 t2 H1 H2. exact (H (S i) t1 t2 H1 H2). Qed.

Lemma render_loop_no_raise (ticks : list tick) (s : Z) (prev : option frame)
    (screen : list curses_call) (st : state) :
  cache_ok st →
  (∀ p t, prev = Some p → ticks !! 0%nat = Some t →
     (Z.to_nat (window_height (tick_maxyx t)) ≤ length p)%nat) →
  heights_never_grow ticks →
  ∀ err, (render_loop ticks s prev screen st).1.1 ≠ Raised err.
Proof.
  revert s prev screen st.
  induction ticks as [|t ticks IH]; intros s prev screen st Hok Hfit Hchain err;
    [done|].
  simpl.
  destruct (render_frame_run (tick_maxyx t) (tick_hour t) s st Hok)
    as (grid & st1 & Hframe & _ & Hland & Hok1 & _).
  rewrite Hframe.
  pose proof (shaded_frame_length (tick_hour t) (inject_Z s) _ _ grid Hland) as Hlen.
  destruct (redraw_completes prev
              (shade_grid (tick_hour t) (inject_Z s) (window_width (tick_maxyx t)) grid)
              (window_width (tick_maxyx t))) as (calls & ->).
  { intros p ->. rewrite Hlen. by eapply Hfit. }
  destruct (tick_key t =? 113); [done|].
  apply IH; [done| |by eapply heights_never_grow_tail].
  intros p t' [= <-] Ht'. rewrite Hlen.
  specialize (Hchain 0%nat t t' eq_refl Ht'). lia.
Qed.

(** X17.  A window that never gets higher is never a problem: in a run
    from a well-formed state in which no pass sees a higher window than the
    pass before it, no pass raises an exception (of the calls on the
    window, taken to succeed, nothing is said). *)
Theorem render_globe_no_raise (ticks : list tick) (st : state) :
  cache_ok st → heights_never_grow ticks →
  ∀ err, (render_globe ticks st).1.1 ≠ Raised err.
Proof.
  intros Hok Hchain. apply render_loop_no_raise; [done| |done]. by intros p t [=].
Qed.

Lemma render_loop_app (pre post : list tick) (s : Z) (prev : option frame)
    (screen : list curses_call) (st : state) :
  render_loop (pre ++ post) s prev screen st
  = match render_loop pre s prev screen st with
    | (Waiting s' prev', screen', st') => render_loop post s' prev' screen' st'
    | ended => ended
    end.
Proof.
  revert s prev screen st. induction pre as [|t pre IH]; intros s prev screen st;
    [done|].
  simpl. destruct (render_frame _ _ _ st) as [[globe_strings|err] st1]; [|done].
  destruct (redraw prev globe_strings _) as [calls [[]|err]]; [|done].
  destruct (tick_key t =? 113); [done|]. apply IH.
Qed.

(** A run without the quit key over heights that never grow uses up its
    ticks and hands on a frame of the height of the last window. *)
Lemma render_loop_waiting (ticks : list tick) (s : Z) (prev : option frame)
    (screen : list curses_call) (st : state) :
  cache_ok st →
  (∀ p t, prev = Some p → ticks !! 0%nat = Some t →
     (Z.to_nat (window_height (tick_maxyx t)) ≤ length p)%nat) →
  heights_never_grow ticks →
  Forall (fun t => tick_key t ≠ 113) ticks →
  ∃ s' prev' screen' st',
    render_loop ticks s prev screen st = (Waiting s' prev', screen', st')
    ∧ cache_ok st'
    ∧ ∀ t, last ticks = Some t →
        ∃ f, prev' = Some f ∧ length f = Z.to_nat (window_height (tick_maxyx t)).
Proof.
  revert s prev screen st.
  induction ticks as [|t ticks IH]; intros s prev screen st Hok Hfit Hchain Hkeys.
  - eexists _, _, _, _. split; [done|]. split; [done|]. by intros t [=].
  - apply Forall_cons in Hkeys as [Hkey Hkeys]. simpl.
    destruct (render_frame_run (tick_maxyx t) (tick_hour t) s st Hok)
      as (grid & st1 & Hframe & _ & Hland & Hok1 & _).
    rewrite Hframe.
    pose proof (shaded_frame_length (tick_hour t) (inject_Z s) _ _ grid Hland) as Hlen.
    destruct (redraw_completes prev
                (shade_grid (tick_hour t) (inject_Z s) (window_width (tick_maxyx t)) grid)
                (window_width (tick_maxyx t))) as (calls & ->).
    { intros p ->. rewrite Hlen. by eapply Hfit. }
    destruct (Z.eqb_spec (tick_key t) 113); [done|].
    destruct (IH (next_longitude_shift s)
                (Some (shade_grid (tick_hour t) (inject_Z s)
                         (window_width (tick_maxyx t)) grid))
                (screen ++ calls) st1 Hok1)
      as (s' & prev' & screen' & st' & Hrun & Hok' & Hlast);
      [|by eapply heights_never_grow_tail|done|].
    { intros p t' [= <-] Ht'. rewrite Hlen.
      specialize (Hchain 0%nat t t' eq_refl Ht'). lia. }
    exists s', prev', screen', st'. split; [done|]. split; [done|].
    intros tl Htl. destruct ticks as [|t2 ticks'].
    + injection Htl as <-. injection Hrun as _ <- _ _. by eexists.
    + apply Hlast. exact Htl.
Qed.

(** X18.  A window that gets higher stops the program: when, after passes
    over heights that never grow and without the quit key, a pass finds a
    window whose clamped height is greater than that of the pass before,
    its refresh indexes the previous frame past its end and the run ends
    with [IndexError]. *)
Theorem render_globe_raises_on_growth (pre post : list tick) (t1 t2 : tick)
    (st : state) :
  cache_ok st →
  heights_never_grow (pre ++ [t1]) →
  Forall (fun t => tick_key t ≠ 113) (pre ++ [t1]) →
  window_height (tick_maxyx t1) < window_height (tick_maxyx t2) →
  (render_globe (pre ++ t1 :: t2 :: post) st).1.1 = Raised IndexError.
Proof.
  intros Hok Hchain Hkeys Hgrow. unfold render_globe.
  replace (pre ++ t1 :: t2 :: post) with ((pre ++ [t1]) ++ t2 :: post)
    by (by rewrite <- app_assoc).
  rewrite render_loop_app.
  destruct (render_loop_waiting (pre ++ [t1]) 0 None [] st Hok)
    as (s' & prev' & screen' & st' & -> & Hok' & Hlast); [by intros p t [=]|done..|].
  destruct (Hlast t1) as (f & -> & Hf); [by rewrite last_snoc|].
  simpl.
  destruct (render_frame_run (tick_maxyx t2) (tick_hour t2) s' st' Hok')
    as (grid & st2 & Hframe & _ & Hland & _).
  rewrite Hframe.
  pose proof (shaded_frame_length (tick_hour t2) (inject_Z s') _ _ grid Hland) as Hlen.
  pose proof (window_size_bounds (tick_maxyx t1)) as [_ Hh1].
  destruct f as [|row f]; [simpl in Hf; lia|].
  destruct (redraw_changed_raises (row :: f) 0
              (shade_grid (tick_hour t2) (inject_Z s') (window_width (tick_maxyx t2)) grid)
              (window_width (tick_maxyx t2))) as (calls & Hraise); [lia|lia|].
  simpl. change (Z.of_nat 0) with 0 in Hraise. by rewrite Hraise.
Qed.

(** X19.  The rotation offset advances by 3 degrees per pass, modulo 360:
    a run that has used up [n] ticks without ending has the offset
    [3 n mod 360], so the offset is 0 again after every 120 passes. *)
Theorem render_globe_longitude_shift (ticks : list tick) (st : state)
    (s' : Z) (prev' : option frame) (screen' : list curses_call) (st' : state) :
  render_globe ticks st = (Waiting s' prev', screen', st') →
  s' = (3 * Z.of_nat (length ticks)) mod 360.
Proof.
  unfold render_globe.
  assert (Hgen : ∀ ticks s prev screen st,
            0 <= s < 360 →
            render_loop ticks s prev screen st = (Waiting s' prev', screen', st') →
            s' = (s + 3 * Z.of_nat (length ticks)) mod 360).
  { clear. intros ticks. induction ticks as [|t ticks IH];
      intros s prev screen st Hs Hrun.
    - injection Hrun as <- _ _ _. simpl. rewrite Z.add_0_r.
      symmetry. by apply Z.mod_small.
    - simpl in Hrun.
      destruct (render_frame _ _ _ st) as [[globe_strings|err] st1]; [|done].
      destruct (redraw prev globe_strings _) as [calls [[]|err]]; [|done].
      destruct (tick_key t =? 113); [done|].
      apply IH in Hrun.
      + rewrite Hrun. unfold next_longitude_shift, ROTATION_SPEED.
        rewrite Zplus_mod_idemp_l. f_equal. simpl length. lia.
      + unfold next_longitude_shift. apply Z.mod_pos_bound. lia. }
  intros Hrun. apply (Hgen ticks 0 None [] st) in Hrun; [|lia].
  by rewrite Z.add_0_l in Hrun.
Qed.



End RenderGlobeFacts.

(** ** The rendering loop on the example terminal *)

Lemma heights_never_grow_replicate (n : nat) (t : tick) :
  heights_never_grow (replicate n t).
Proof.
  intros i t1 t2 H1 H2.
  apply lookup_replicate in H1 as [-> _], H2 as [-> _]. lia.
Qed.

Lemma render_loop_cache_keys_witness :
  ∃ e screen' st',
    render_loop box_contains example_land
      [example_tick; example_tick_higher; example_tick] 0 None [] initial_state
    = (e, screen', st')
    ∧ cache_ok st'
    ∧ ∀ w h, is_Some (LAND_CACHE st' !! (w, h)) → 20 <= w <= 80 ∧ 10 <= h <= 40.
Proof.
  destruct (render_loop box_contains example_land
              [example_tick; example_tick_higher; example_tick] 0 None []
              initial_state) as [[e screen'] st'] eqn:Hrun.
  exists e, screen', st'. split; [reflexivity|].
  apply (render_loop_cache_keys box_contains example_land
           [example_tick; example_tick_higher; example_tick] 0 None []
           initial_state e screen' st').
  - apply cache_ok_initial.
  - intros w h [l Hl]. simpl in Hl. rewrite lookup_empty in Hl. discriminate Hl.
  - exact Hrun.
Defined.

Lemma render_globe_no_raise_witness :
  heights_never_grow [example_tick_higher; example_tick; example_tick]
  ∧ (render_globe box_contains example_land
       [example_tick_higher; example_tick; example_tick] initial_state).1.1
    ≠ Raised IndexError.
Proof.
  assert (H : heights_never_grow [example_tick_higher; example_tick; example_tick]).
  { intros i t1 t2 H1 H2.
    destruct i as [|[|[|i]]]; simpl in H1, H2;
      try discriminate H2; injection H1 as <-; injection H2 as <-;
      vm_compute; discriminate. }
  split; [exact H|].
  exact (render_globe_no_raise box_contains example_land
           [example_tick_higher; example_tick; example_tick] initial_state
           cache_ok_initial H IndexError).
Defined.

Lemma render_globe_raises_on_growth_witness :
  (render_globe box_contains example_land
     ([example_tick] ++ example_tick :: example_tick_higher :: [example_tick])
     initial_state).1.1
  = Raised IndexError.
Proof.
  apply (render_globe_raises_on_growth box_contains example_land
           [example_tick] [example_tick] example_tick example_tick_higher
           initial_state).
  - apply cache_ok_initial.
  - apply (heights_never_grow_replicate 2 example_tick).
  - apply (bool_decide_unpack _). by vm_compute.
  - by vm_compute.
Defined.

Lemma render_globe_longitude_shift_witness :
  ∃ s' prev' screen' st',
    render_globe box_contains example_land (replicate 121 example_tick) initial_state
    = (Waiting s' prev', screen', st')
    ∧ s' = (3 * Z.of_nat (length (replicate 121 example_tick))) mod 360.
Proof.
  destruct (render_loop_waiting box_contains example_land
              (replicate 121 example_tick) 0 None [] initial_state)
    as (s' & prev' & screen' & st' & Hrun & _).
  - apply cache_ok_initial.
  - by intros p t [=].
  - apply heights_never_grow_replicate.
  - apply Forall_replicate. by vm_compute.
  - exists s', prev', screen', st'. split; [exact Hrun|].
    exact (render_globe_longitude_shift box_contains example_land
             (replicate 121 example_tick) initial_state s' prev' screen' st' Hrun).
Defined.

